(** * Contrastive batch construction and loss of the domino training code

    A shallow embedding of [domino/cnc.py] and of the contrastive parts of
    [domino/vision_ks.py].  Python exceptions are an error monad.  The
    tensors of the contrastive loss hold floating-point values, and the
    arithmetic of the tensor library on them is a parameter; the gaze
    distances, sampler weights and logged sums are lists of real numbers. *)

From Stdlib Require Import ZArith List Reals Lra Lia Permutation Sorted.
From Stdlib Require Import Ascii String.
From stdpp Require Import base option list gmap strings.

(** ** Python exceptions *)

Inductive exn :=
| KeyError | ValueError | TypeError | AttributeError
| UnboundLocalError | IndexError | RuntimeError | ZeroDivisionError.

Inductive result (A : Type) :=
| Ok (a : A)
| Raise (e : exn).
Arguments Ok {A} a.
Arguments Raise {A} e.

#[global] Instance result_ret : MRet result := @Ok.
#[global] Instance result_bind : MBind result := fun A B f m =>
  match m with
  | Ok a => f a
  | Raise e => Raise e
  end.
#[global] Instance result_fmap : FMap result := fun A B f m =>
  match m with
  | Ok a => Ok (f a)
  | Raise e => Raise e
  end.

Definition raises {A} (m : result A) : Prop := exists e, m = Raise e.

(** ** One-dimensional tensors over the reals *)

Definition tensor1 := list R.

Definition Rleb (x y : R) : bool := if Rle_dec x y then true else false.
Definition Rltb (x y : R) : bool := if Rlt_dec x y then true else false.

Definition t_sum (xs : tensor1) : R := foldr Rplus 0%R xs.
Definition t_mean (xs : tensor1) : R := (t_sum xs / INR (length xs))%R.

(** Element-wise binary operations broadcast a tensor of length one. *)
Definition broadcast {A B C} (f : A -> B -> C) (xs : list A) (ys : list B)
  : result (list C) :=
  match xs, ys with
  | _, [y] => Ok (map (fun x => f x y) xs)
  | [x], _ => Ok (map (f x) ys)
  | _, _ => if (length xs =? length ys)%nat then Ok (zip_with f xs ys)
            else Raise RuntimeError
  end.

Definition dot (x y : list R) : R := t_sum (zip_with Rmult x y).
Definition norm (x : list R) : R := sqrt (dot x x).

(** ** Floating-point values and the arithmetic of the tensor library

    An element of a float32 tensor is a finite number, an infinity or
    NaN.  torch rounds the result of every operation, overflows to an
    infinity, and adds the operands of a reduction in an order of its
    own; its operations on elements are therefore parameters, and what is
    proved of the loss holds for every interpretation of them. *)
Inductive float :=
| NaN
| Inf (negative : bool)
| Finite (x : R).

Class Torch := {
  f_add : float -> float -> float;
  f_sub : float -> float -> float;
  f_mul : float -> float -> float;
  f_div : float -> float -> float;
  f_max : float -> float -> float;
  f_sqrt : float -> float;
  f_exp : float -> float;
  f_log : float -> float;
  f_sum : list float -> float;
  f_mean : list float -> float
}.

(** ** Random number generation

    [np.random] and [torch.rand_like] draw from a hidden generator state;
    the state is threaded explicitly.  [randint g high size] is
    [np.random.randint(0, high, size)], [rand g n] is [n] draws from
    the interval [[0, 1)]. *)
Class Rng (G : Type) := {
  randint : G -> nat -> nat -> list nat * G;
  rand : G -> nat -> list R * G;
  randint_length : forall g high size, length (randint g high size).1 = size;
  randint_bound : forall g high size,
    0 < high -> Forall (fun i => i < high) (randint g high size).1;
  rand_length : forall g n, length (rand g n).1 = n;
  rand_range : forall g n, Forall (fun x => 0 <= x < 1)%R (rand g n).1
}.

(** Fancy indexing [a[idx]]. *)
Fixpoint gather {A} (a : list A) (idx : list nat) : result (list A) :=
  match idx with
  | [] => Ok []
  | i :: rest =>
      match a !! i with
      | Some x => xs ← gather a rest; Ok (x :: xs)
      | None => Raise IndexError
      end
  end.

(** [np.random.choice(a, size)]: uniform, with replacement. *)
Definition random_choice `{Rng G} {A} (a : list A) (size : nat) (g : G)
  : result (list A) * G :=
  if decide (length a = 0 /\ 0 < size) then (Raise ValueError, g)
  else let '(idx, g') := randint g (length a) size in (gather a idx, g').

Module Cnc.

(** *** Datapanels and the contrastive column *)

Record row := { row_id : nat; group_id : Z }.
Definition datapanel := list row.

(** The dict a lambda column over [["group_id"]] passes to its function. *)
Definition row_dict (r : row) : gmap string Z :=
  {[ "group_id"%string := group_id r ]}.

Definition contrastive_loader `{Rng G} (input_dict : gmap string Z)
    (positive_entries negative_entries : datapanel * datapanel)
    (num_p num_n : nat) (g : G) : result (list row * list row) * G :=
  let '(positive_entries_0, positive_entries_3) := positive_entries in
  let '(negative_entries_0, negative_entries_3) := negative_entries in
  match input_dict !! "group_id"%string with
  | None => (Raise KeyError, g)
  | Some anchor_group_id =>
      let draw (pos neg : datapanel) :=
        match random_choice pos num_p g with
        | (Raise e, g1) => (Raise e, g1)
        | (Ok positive_entry, g1) =>
            match random_choice neg num_n g1 with
            | (Raise e, g2) => (Raise e, g2)
            | (Ok negative_entry, g2) =>
                (Ok (positive_entry, negative_entry), g2)
            end
        end in
      if decide (anchor_group_id = 0%Z) then
        draw positive_entries_0 negative_entries_0
      else if decide (anchor_group_id = 3%Z) then
        draw positive_entries_3 negative_entries_3
      else (Raise UnboundLocalError, g)
  end.

(** A datapanel with the lazily evaluated ["contrastive_pair"] column. *)
Record contrastive_datapanel (G : Type) := {
  cdp_rows : datapanel;
  cdp_contrastive_pair :
    gmap string Z -> G -> result (list row * list row) * G
}.
Arguments cdp_rows {G} _.
Arguments cdp_contrastive_pair {G} _ _ _.

Definition load_contrastive_dp `{Rng G} (dp : datapanel)
    (num_a num_p num_n : nat) : contrastive_datapanel G :=
  let positive_entries_0 := filter (fun r => group_id r = 2%Z) dp in
  let negative_entries_0 := filter (fun r => group_id r = 1%Z) dp in
  let positive_entries_3 := filter (fun r => group_id r = 1%Z) dp in
  let negative_entries_3 := filter (fun r => group_id r = 2%Z) dp in
  let contrastive_dp :=
    filter (fun r => group_id r = 0%Z \/ group_id r = 3%Z) dp in
  {| cdp_rows := contrastive_dp;
     cdp_contrastive_pair := fun input_dict =>
       contrastive_loader input_dict
         (positive_entries_0, positive_entries_3)
         (negative_entries_0, negative_entries_3) num_p num_n |}.

(** Reading [cdp[i]["contrastive_pair"]] runs the loader on row [i]. *)
Definition contrastive_pair_at {G} (cdp : contrastive_datapanel G)
    (i : nat) (g : G) : result (list row * list row) * G :=
  match cdp_rows cdp !! i with
  | Some r => cdp_contrastive_pair cdp (row_dict r) g
  | None => (Raise IndexError, g)
  end.

(** *** [SupervisedContrastiveLoss] *)

Definition image := list R.
Definition embedding := list float.

Record SupervisedContrastiveLoss := { temperature : R }.

(** [__init__]: the temperature is read from the configuration dict. *)
Definition init (config : gmap string R) : result SupervisedContrastiveLoss :=
  match config !! "temperature"%string with
  | Some t => Ok {| temperature := t |}
  | None => Raise KeyError
  end.

(** The encoder is an [nn.Sequential]: a number of child modules and the
    function from a stack of [k] inputs to the tensor of shape [[k, d]]
    of their embeddings, held as its [k] rows. *)
Record Sequential := { children : nat; run : list image -> list embedding }.

(** The two kinds of object that [training_step] hands to the loss:
    the tuple [(a_input, p_inputs, n_inputs)] and the encoder module. *)
Inductive pyarg :=
| ArgTuple (a_input : image) (p_inputs n_inputs : list image)
| ArgModule (m : Sequential).

(** The width [d] of a stack of rows, read off its first row. *)
Definition width (t : list embedding) : nat :=
  match t with
  | r :: _ => length r
  | [] => 0
  end.

Section Loss.
Context `{Torch}.

(** Element-wise operations on a tensor of one dimension; [c] is a
    Python number. *)
Definition t_exp (xs : list float) : list float := map f_exp xs.
Definition t_log (xs : list float) : list float := map f_log xs.
Definition t_div (xs : list float) (c : R) : list float :=
  map (fun x => f_div x (Finite c)) xs.
Definition t_scale (c : R) (xs : list float) : list float :=
  map (f_mul (Finite c)) xs.
Definition t_add := broadcast f_add.
Definition t_sub := broadcast f_sub.

Definition row_dot (x y : embedding) : float := f_sum (zip_with f_mul x y).
Definition row_norm (x : embedding) : float := f_sqrt (row_dot x x).

(** The similarity of two rows under [nn.CosineSimilarity], with its
    default [eps = 1e-8]: the inner product over the product of the
    norms, the latter clamped from below at [eps]. *)
Definition cos_eps : R := (/ 100000000)%R.
Definition cosine (x y : embedding) : float :=
  f_div (row_dot x y)
        (f_max (f_mul (row_norm x) (row_norm y)) (Finite cos_eps)).

(** [self.sim(a_output, outputs)], that is [nn.CosineSimilarity(dim=1)],
    of the anchor's output [x1] with the output [x2] for a stack.  Both
    went through [squeeze()], which drops every dimension of size 1 of a
    [[k, d]] output.  For [d = 1] the anchor's output, squeezed and
    unsqueezed again, has one dimension, the stack's at most one, and
    [dim=1] is out of range.  For any other [d] the anchor's output has
    the shape [[1, d]] and the stack's keeps its rows; a stack of a
    single row, squeezed to shape [[d]], is brought back to that row by
    broadcasting. *)
Definition CosineSimilarity (x1 x2 : list embedding) : result (list float) :=
  if (width x1 =? 1)%nat then Raise IndexError
  else broadcast cosine x1 x2.

(** [forward(self, encoder, contrastive_batch)].  Unpacking an
    [nn.Sequential] iterates over its children; a tuple is not callable. *)
Definition forward (self : SupervisedContrastiveLoss)
    (encoder contrastive_batch : pyarg) : result float :=
  match contrastive_batch with
  | ArgModule m =>
      if (children m =? 3)%nat then Raise AttributeError else Raise ValueError
  | ArgTuple a_input p_inputs n_inputs =>
      match encoder with
      | ArgTuple _ _ _ => Raise TypeError
      | ArgModule enc =>
          let a_output := run enc [a_input] in
          let p_outputs := run enc p_inputs in
          let n_outputs := run enc n_inputs in
          pos_sim ← CosineSimilarity a_output p_outputs;
          let pos_exp := t_exp (t_div pos_sim (temperature self)) in
          neg_sim ← CosineSimilarity a_output n_outputs;
          let neg_exp := t_exp (t_div neg_sim (temperature self)) in
          let neg_exp_sum := [f_sum neg_exp] in
          denom ← t_add pos_exp neg_exp_sum;
          log_probs ← t_sub (t_log pos_exp) (t_log denom);
          let loss := t_scale (-1) log_probs in
          Ok (f_mean loss)
      end
  end.

(** The loss as the specification words it: the similarity of two
    embeddings is their cosine similarity (the inner product over the
    product of the Euclidean norms, [nn.CosineSimilarity] keeping the
    product at [1e-8] at least), and the loss is the mean over the
    positives of the negated log-probabilities. *)
Definition spec_cosine (x y : embedding) : float :=
  f_div (f_sum (zip_with f_mul x y))
        (f_max (f_mul (f_sqrt (f_sum (zip_with f_mul x x)))
                      (f_sqrt (f_sum (zip_with f_mul y y))))
               (Finite (/ 100000000)%R)).

Definition spec_loss (a : embedding) (ps ns : list embedding) (T : R) : float :=
  f_mean
    (map (fun p =>
            f_mul (Finite (-1))
              (f_sub (f_log (f_exp (f_div (spec_cosine a p) (Finite T))))
                     (f_log (f_add
                               (f_exp (f_div (spec_cosine a p) (Finite T)))
                               (f_sum (map (fun n =>
                                              f_exp (f_div (spec_cosine a n)
                                                           (Finite T)))
                                           ns))))))
         ps).

End Loss.

End Cnc.

Module VisionKs.

(** *** Tensor objects and [free_gpu]

    Tensors are objects in a store; Python variables hold references.
    [detach] and [cpu] never mutate the tensor they are called on. *)

Inductive device := Cpu | Cuda.

Record tensor_obj := {
  t_data : list R;
  t_device : device;
  t_requires_grad : bool
}.

Definition alloc (h : gmap nat tensor_obj) (o : tensor_obj)
  : nat * gmap nat tensor_obj :=
  let l := fresh (dom h) in (l, <[l := o]> h).

(** [tensor.detach()]: a new tensor object without gradient tracking. *)
Definition detach (h : gmap nat tensor_obj) (l : nat)
  : result (nat * gmap nat tensor_obj) :=
  match h !! l with
  | Some o =>
      Ok (alloc h {| t_data := t_data o; t_device := t_device o;
                     t_requires_grad := false |})
  | None => Raise AttributeError
  end.

(** [tensor.cpu()]: the tensor itself when it already lives on the CPU,
    otherwise a copy. *)
Definition cpu (h : gmap nat tensor_obj) (l : nat)
  : result (nat * gmap nat tensor_obj) :=
  match h !! l with
  | Some o =>
      match t_device o with
      | Cpu => Ok (l, h)
      | Cuda =>
          Ok (alloc h {| t_data := t_data o; t_device := Cpu;
                         t_requires_grad := t_requires_grad o |})
      end
  | None => Raise AttributeError
  end.

(** [tensor.item()] *)
Definition item (h : gmap nat tensor_obj) (l : nat) : result R :=
  match h !! l with
  | Some o =>
      match t_data o with
      | [x] => Ok x
      | _ => Raise ValueError
      end
  | None => Raise AttributeError
  end.

(** The loop of [free_gpu]; [env] is the function's own frame, in which
    only the loop variable [tensor] is ever rebound or deleted. *)
Fixpoint free_gpu_loop (tensors : list nat) (delete : bool)
    (h : gmap nat tensor_obj) (env : gmap string nat)
  : result (gmap nat tensor_obj * gmap string nat) :=
  match tensors with
  | [] => Ok (h, env)
  | t :: rest =>
      let env := <["tensor"%string := t]> env in
      '(d, h) ← detach h t;
      '(c, h) ← cpu h d;
      let env := <["tensor"%string := c]> env in
      let env := if delete then base.delete "tensor"%string env else env in
      free_gpu_loop rest delete h env
  end.

(** [free_gpu(tensors, delete)] returns [None]; its frame is dropped. *)
Definition free_gpu (tensors : list nat) (delete : bool)
    (h : gmap nat tensor_obj) : result (gmap nat tensor_obj) :=
  '(h', _) ← free_gpu_loop tensors delete h ∅; Ok h'.

(** *** Group ids in [train] *)

(** A numpy float holding a label: an integer value or NaN. *)
Inductive npval := NaN | Num (z : Z).

Definition np_add (x y : npval) : npval :=
  match x, y with
  | Num a, Num b => Num (a + b)
  | _, _ => NaN
  end.

Definition np_scale (k : Z) (x : npval) : npval :=
  match x with
  | Num a => Num (k * a)
  | NaN => NaN
  end.

Definition isnan (x : npval) : bool :=
  match x with NaN => true | Num _ => false end.

Definition astype_int (x : npval) : Z :=
  match x with Num a => a | NaN => (- 2 ^ 63)%Z end.

(** [for i in range(len(subgroup_columns)): group_ids = group_ids +
    (2 ** (i + 1)) * dp[subgroup_columns[i]]], from index [i] on. *)
Fixpoint pack_columns (i : nat) (cols : list (list npval))
    (group_ids : list npval) : list npval :=
  match cols with
  | [] => group_ids
  | col :: rest =>
      pack_columns (S i) rest
        (zip_with np_add group_ids (map (np_scale (2 ^ (Z.of_nat i + 1))) col))
  end.

Definition compute_group_ids (target : list npval)
    (subgroup_columns : list (list npval)) : list Z :=
  let group_ids :=
    if (0 <? length subgroup_columns)%nat
    then pack_columns 0 subgroup_columns target
    else target in
  let group_ids := map (fun x => if isnan x then Num (-1) else x) group_ids in
  map astype_int group_ids.

(** The names of the groups, built by decoding the group index. *)
Definition binary_strs (b : bool) : string :=
  if b then "with"%string else "without"%string.

Definition decode_target (i : Z) : bool := negb (i mod 2 =? 0)%Z.
Definition decode_subgroup (i : Z) (ndx : nat) : bool :=
  negb ((i ÷ 2 ^ (Z.of_nat ndx + 1)) mod 2 =? 0)%Z.

Fixpoint subgroup_suffix (i : Z) (ndx : nat) (names : list string) : string :=
  match names with
  | [] => ""%string
  | name :: rest =>
      ("_" +:+ binary_strs (decode_subgroup i ndx) +:+ "_" +:+ name
       +:+ subgroup_suffix i (S ndx) rest)%string
  end.

Definition subgroup_name (target_column : string) (names : list string)
    (i : nat) : string :=
  (binary_strs (decode_target (Z.of_nat i)) +:+ "_" +:+ target_column
   +:+ subgroup_suffix (Z.of_nat i) 0 names)%string.

Definition subgroup_columns_ (target_column : string) (names : list string)
  : list string :=
  map (subgroup_name target_column names) (seq 0 (2 ^ (length names + 1))).

(** *** Robust sampler weights in [train] *)


Definition count_true (mask : list bool) : nat :=
  length (filter (fun b => b = true) mask).



(** *** [Classifier.training_step], contrastive methods *)

Inductive method := cnc | cnc_gaze | randcon.

Record Classifier := {
  cfg_method : method;
  contrastive_loss : Cnc.SupervisedContrastiveLoss;
  encoder : Cnc.Sequential;
  model : list Cnc.image -> list (list R);
  train_loss_computer : list (list R) -> list Z -> tensor1;
  contrastive_weight : R
}.

Record entries := {
  e_inputs : list (list Cnc.image);
  e_targets : list (list Z)
}.

Record batch := {
  b_input : list Cnc.image;
  b_target : list Z;
  b_group_id : list Z;
  b_gaze_features : list (list R);
  b_contrastive_input_pair : option (entries * entries)
}.

(** The companions of one anchor: [p_inputs, p_targets, n_inputs,
    n_targets]. *)
Record companions := {
  p_inputs : list Cnc.image;
  p_targets : list Z;
  n_inputs : list Cnc.image;
  n_targets : list Z
}.

Definition index {A} (xs : list A) (i : nat) : result A :=
  match xs !! i with
  | Some x => Ok x
  | None => Raise IndexError
  end.

(** Boolean-mask indexing [xs[mask]]. *)
Definition mask_select {A} (xs : list A) (mask : list bool) : result (list A) :=
  if decide (length xs = length mask)
  then Ok (map fst (filter (fun p => p.2 = true) (zip xs mask)))
  else Raise IndexError.

Fixpoint insert_sorted (x : R) (l : list R) : list R :=
  match l with
  | [] => [x]
  | y :: rest => if Rleb x y then x :: l else y :: insert_sorted x rest
  end.

Definition sort_asc (xs : list R) : list R := foldr insert_sorted [] xs.

(** [torch.median]: for an even number of elements, the lower of the two
    middle ones. *)
Definition median (xs : tensor1) : result R :=
  match sort_asc xs !! ((length xs - 1) `div` 2) with
  | Some m => Ok m
  | None => Raise RuntimeError
  end.

(** [torch.norm(gaze_features - a_gfeats, dim=1)] *)
Definition gaze_distances (gaze_features : list (list R)) (a_gfeats : list R)
  : tensor1 :=
  map (fun f => norm (zip_with Rminus f a_gfeats)) gaze_features.

(** The distances the masks are computed from: gaze distances, replaced
    by random draws under [randcon]. *)
Definition gfeat_dist_of `{Rng G} (is_randcon : bool) (b : batch) (a_ix : nat)
    (g : G) : result tensor1 * G :=
  match index (b_gaze_features b) a_ix with
  | Raise e => (Raise e, g)
  | Ok a_gfeats =>
      let gfeat_dist := gaze_distances (b_gaze_features b) a_gfeats in
      if is_randcon
      then let '(r, g') := rand g (length gfeat_dist) in (Ok r, g')
      else (Ok gfeat_dist, g)
  end.

Record masks := { n_mask : list bool; p_mask : list bool }.

(** The masks of anchor [a_ix], from its distances. *)
Definition gaze_masks (gfeat_dist : tensor1) (a_targets : list Z) (a_ix : nat)
  : result masks :=
  alpha ← median gfeat_dist;
  a_target ← index a_targets a_ix;
  let same_class := map (fun t => bool_decide (t = a_target)) a_targets in
  n_mask ← broadcast andb (map (fun d => Rltb alpha d) gfeat_dist) same_class;
  p_mask ← broadcast andb (map (fun d => Rleb d alpha) gfeat_dist) same_class;
  if decide (a_ix < length p_mask)
  then Ok {| n_mask := n_mask; p_mask := <[a_ix := false]> p_mask |}
  else Raise IndexError.

(** The branch [elif self.cnc_gaze or self.randcon]; [None] is the
    [continue] that skips the anchor. *)
Definition gaze_companions `{Rng G} (is_randcon : bool) (b : batch)
    (a_ix : nat) (g : G) : result (option companions) * G :=
  match gfeat_dist_of is_randcon b a_ix g with
  | (Raise e, g') => (Raise e, g')
  | (Ok gfeat_dist, g') =>
      (m ← gaze_masks gfeat_dist (b_target b) a_ix;
       if decide (count_true (p_mask m) < 2 \/ count_true (n_mask m) < 2)
       then Ok None
       else
         pi ← mask_select (b_input b) (p_mask m);
         pt ← mask_select (b_target b) (p_mask m);
         ni ← mask_select (b_input b) (n_mask m);
         nt ← mask_select (b_target b) (n_mask m);
         Ok (Some {| p_inputs := pi; p_targets := pt;
                     n_inputs := ni; n_targets := nt |}), g')
  end.

(** The branch [if self.cnc], with the columns unpacked before the loop. *)
Definition cnc_companions (pair : entries * entries) (a_ix : nat)
  : result (option companions) :=
  pi ← index (e_inputs pair.1) a_ix;
  ni ← index (e_inputs pair.2) a_ix;
  pt ← index (e_targets pair.1) a_ix;
  nt ← index (e_targets pair.2) a_ix;
  Ok (Some {| p_inputs := pi; p_targets := pt;
              n_inputs := ni; n_targets := nt |}).

(** Unpacking the value returned by the loss into three names: the
    value is a 0-d tensor, which cannot be iterated over. *)
Definition unpack3 (loss : float) : result (nat * nat * nat) := Raise TypeError.

Record loop_state (G : Type) := {
  st_heap : gmap nat tensor_obj;
  st_rng : G;
  st_contrastive_loss : R;
  st_pos_sim : R;
  st_neg_sim : R;
  st_companions : option companions
}.
Arguments st_heap {G} _.
Arguments st_rng {G} _.
Arguments st_contrastive_loss {G} _.
Arguments st_pos_sim {G} _.
Arguments st_neg_sim {G} _.
Arguments st_companions {G} _.

(** Lines 278-283: backward pass (whose effect, on the parameter
    gradients, lies outside the modelled store), release, running sums. *)
Definition accumulate {G} (st : loop_state G) (cs : companions)
    (c_loss pos_sim_ neg_sim_ : nat) : result (loop_state G) :=
  h ← free_gpu [c_loss] true (st_heap st);
  x ← item h c_loss;
  y ← item h pos_sim_;
  z ← item h neg_sim_;
  Ok {| st_heap := h; st_rng := st_rng st;
        st_contrastive_loss := (st_contrastive_loss st + x)%R;
        st_pos_sim := (st_pos_sim st + y)%R;
        st_neg_sim := (st_neg_sim st + z)%R;
        st_companions := Some cs |}.

(** One iteration of [for a_ix in range(len(a_inputs))].  The loss is
    called as [self.contrastive_loss((anchor, p_inputs, n_inputs),
    self.encoder)]: the tuple is bound to [forward]'s parameter [encoder]
    and the encoder to [contrastive_batch]. *)
Definition anchor_step `{Torch} `{Rng G} (self : Classifier) (b : batch)
    (pair : option (entries * entries)) (st : loop_state G) (a_ix : nat)
  : result (loop_state G) :=
  let '(sel, g) :=
    match cfg_method self with
    | cnc =>
        match pair with
        | Some pr => (cnc_companions pr a_ix, st_rng st)
        | None => (Raise UnboundLocalError, st_rng st)
        end
    | cnc_gaze => gaze_companions false b a_ix (st_rng st)
    | randcon => gaze_companions true b a_ix (st_rng st)
    end in
  sel ← sel;
  match sel with
  | None =>
      Ok {| st_heap := st_heap st; st_rng := g;
            st_contrastive_loss := st_contrastive_loss st;
            st_pos_sim := st_pos_sim st;
            st_neg_sim := st_neg_sim st;
            st_companions := st_companions st |}
  | Some cs =>
      a_input ← index (b_input b) a_ix;
      out ← Cnc.forward (contrastive_loss self)
               (Cnc.ArgTuple a_input (p_inputs cs) (n_inputs cs))
               (Cnc.ArgModule (encoder self));
      '(c_loss, pos_sim_, neg_sim_) ← unpack3 out;
      accumulate {| st_heap := st_heap st; st_rng := g;
                    st_contrastive_loss := st_contrastive_loss st;
                    st_pos_sim := st_pos_sim st;
                    st_neg_sim := st_neg_sim st;
                    st_companions := st_companions st |}
                 cs c_loss pos_sim_ neg_sim_
  end.

Fixpoint anchor_loop `{Torch} `{Rng G} (self : Classifier) (b : batch)
    (pair : option (entries * entries)) (ixs : list nat) (st : loop_state G)
  : result (loop_state G) :=
  match ixs with
  | [] => Ok st
  | a_ix :: rest =>
      st' ← anchor_step self b pair st a_ix;
      anchor_loop self b pair rest st'
  end.

Record step_output := {
  out_loss : R;
  log_contrastive_loss : R;
  log_positive_sim : R;
  log_negative_sim : R
}.

(** [training_step] when [self.contrastive] holds. *)
Definition training_step `{Torch} `{Rng G} (self : Classifier) (b : batch)
    (h : gmap nat tensor_obj) (g : G) : result step_output :=
  pair ← match cfg_method self with
         | cnc =>
             match b_contrastive_input_pair b with
             | Some pr => Ok (Some pr)
             | None => Raise KeyError
             end
         | _ => Ok None
         end;
  st ← anchor_loop self b pair (seq 0 (length (b_input b)))
         {| st_heap := h; st_rng := g; st_contrastive_loss := 0;
            st_pos_sim := 0; st_neg_sim := 0; st_companions := None |};
  if decide (length (b_input b) = 0) then Raise ZeroDivisionError
  else
    let n := INR (length (b_input b)) in
    let contrastive_loss := (st_contrastive_loss st / n)%R in
    let pos_sim := (st_pos_sim st / n)%R in
    let neg_sim := (st_neg_sim st / n)%R in
    '(inputs, targets) ←
      match cfg_method self with
      | cnc =>
          match st_companions st with
          | Some cs =>
              Ok (b_input b ++ p_inputs cs ++ n_inputs cs,
                  b_target b ++ p_targets cs ++ n_targets cs)
          | None => Raise UnboundLocalError
          end
      | _ => Ok (b_input b, b_target b)
      end;
    let outs := model self inputs in
    let loss := t_mean (train_loss_computer self outs targets) in
    let cw := contrastive_weight self in
    Ok {| out_loss := ((1 - cw) * loss + cw * contrastive_loss)%R;
          log_contrastive_loss := contrastive_loss;
          log_positive_sim := pos_sim;
          log_negative_sim := neg_sim |}.

End VisionKs.

Module Cxr.

(** *** [cxr_pil_loader] (cnc.py)

    A Python dict keeps its keys in insertion order: a list of entries
    whose keys are distinct.  Indexing a list by a boolean uses [True]
    as 1 and [False] as 0.  The DICOM reader and the image conversion are
    external and taken as one function. *)

Definition dict_get {V} (d : list (string * V)) (k : string) : result V :=
  match list_find (fun e : string * V => e.1 = k) d with
  | Some (_, (_, v)) => Ok v
  | None => Raise KeyError
  end.

Definition cxr_pil_loader {pil : Type} (read_dicom : string -> result pil)
    (input_dict : list (string * string)) : result pil :=
  let input_keys := map fst input_dict in
  filepath_key ←
    VisionKs.index input_keys
      (if bool_decide ("filepath"%string ∈ input_keys) then 1 else 0);
  filepath ← dict_get input_dict filepath_key;
  read_dicom filepath.

End Cxr.

Module SaveDir.

(** *** [get_save_dir] (vision_ks.py)

    The configuration entries the function reads.  A scalar entry is held
    by the text that an f-string gives it. *)

Record config := {
  train : option (gmap string string);
  train_contrastive_config : option (gmap string string);
  dataset : option (gmap string string);
  dataset_subgroup_columns : option (list string);
  model : option (gmap string string)
}.

Definition DOMINO_DIR : string := "/home/ksaab/Documents/domino".

Definition entry (section : option (gmap string string)) (k : string)
  : result string :=
  match section with
  | None => Raise KeyError
  | Some m =>
      match m !! k with
      | Some v => Ok v
      | None => Raise KeyError
      end
  end.

(** [sub in s] on strings. *)
Fixpoint contains (sub s : string) : bool :=
  String.prefix sub s ||
  match s with
  | EmptyString => false
  | String _ rest => contains sub rest
  end.

(** The proper ancestors of a path: its non-empty prefixes that are
    followed by a slash. *)
Fixpoint ancestors (seen p : string) : list string :=
  match p with
  | EmptyString => []
  | String c rest =>
      (if bool_decide (c = "/"%char /\ seen <> EmptyString) then [seen] else [])
      ++ ancestors (seen +:+ String c EmptyString) rest
  end.

(** [os.makedirs]: the directory and every missing ancestor. *)
Definition makedirs (fs : gset string) (p : string) : gset string :=
  fs ∪ list_to_set (ancestors EmptyString p) ∪ {[ p ]}.

Definition get_save_dir (cfg : config) (fs : gset string)
  : result (string * gset string) :=
  gaze_split ← entry (train cfg) "gaze_split";
  target ← entry (dataset cfg) "target_column";
  subgroup_columns ←
    match dataset cfg, dataset_subgroup_columns cfg with
    | Some _, Some l => Ok l
    | _, _ => Raise KeyError
    end;
  let subgroups := foldl (fun acc name => acc +:+ "_" +:+ name) "" subgroup_columns in
  let subgroups := if (0 <? length subgroup_columns)%nat then subgroups else "none" in
  method ← entry (train cfg) "method";
  lr ← entry (train cfg) "lr";
  wd ← entry (train cfg) "wd";
  dropout ← entry (model cfg) "dropout";
  let save_dir :=
    DOMINO_DIR +:+ "/scratch/khaled/results/method_" +:+ method
    +:+ "/gaze_split_" +:+ gaze_split +:+ "/target_" +:+ target
    +:+ "/subgroup_" +:+ subgroups +:+ "/lr_" +:+ lr +:+ "/wd_" +:+ wd
    +:+ "/dropout_" +:+ dropout in
  save_dir ←
    (if negb (contains "erm" method) then
       cw ← match train cfg with
            | None => Raise KeyError
            | Some _ => entry (train_contrastive_config cfg) "contrastive_weight"
            end;
       Ok (save_dir +:+ "/cw_" +:+ cw)
     else Ok save_dir);
  seed ← entry (train cfg) "seed";
  let save_dir := save_dir +:+ "/seed_" +:+ seed in
  let fs := if bool_decide (save_dir ∈ fs) then fs else makedirs fs save_dir in
  Ok (save_dir, fs).

End SaveDir.

Module Train.

(** *** More of [train] (vision_ks.py)

    Lines 508-515 once more, with the numpy arrays as objects in a store:
    [group_ids] starts as a reference to the array of the target column,
    an addition allocates a new array, and the assignment through the
    NaN mask updates in place the array [group_ids] refers to. *)

Definition alloc_array (h : gmap nat (list VisionKs.npval))
    (a : list VisionKs.npval) : nat * gmap nat (list VisionKs.npval) :=
  let l := fresh (dom h) in (l, <[l := a]> h).

Definition array (h : gmap nat (list VisionKs.npval)) (l : nat)
  : result (list VisionKs.npval) :=
  match h !! l with
  | Some a => Ok a
  | None => Raise KeyError
  end.

Fixpoint pack_loop (i : nat) (subgroup_columns : list nat)
    (h : gmap nat (list VisionKs.npval)) (group_ids : nat)
  : result (gmap nat (list VisionKs.npval) * nat) :=
  match subgroup_columns with
  | [] => Ok (h, group_ids)
  | c :: rest =>
      g ← array h group_ids;
      col ← array h c;
      let '(l, h) :=
        alloc_array h
          (zip_with VisionKs.np_add g
             (map (VisionKs.np_scale (2 ^ (Z.of_nat i + 1))) col)) in
      pack_loop (S i) rest h l
  end.

Definition group_ids_in_store (h : gmap nat (list VisionKs.npval))
    (target : nat) (subgroup_columns : list nat)
  : result (gmap nat (list VisionKs.npval) * list Z) :=
  '(h, group_ids) ←
    (if (0 <? length subgroup_columns)%nat
     then pack_loop 0 subgroup_columns h target
     else Ok (h, target));
  g ← array h group_ids;
  let g := map (fun x => if VisionKs.isnan x then VisionKs.Num (-1) else x) g in
  Ok (<[group_ids := g]> h, map VisionKs.astype_int g).

(** Line 522, reached under [multiclass]: the number of classes when the
    group ids become the target labels. *)
Definition multiclass_num_classes (num_classes n_subgroup_columns : nat) : nat :=
  num_classes * 2 * n_subgroup_columns.

(** ["group_counts"] of the dataset configs, lines 565-568. *)
Definition group_counts (group_id : list Z) (n_groups : nat) : list nat :=
  map (fun group_i =>
         VisionKs.count_true
           (map (fun g => bool_decide (g = Z.of_nat group_i)) group_id))
      (seq 0 n_groups).

(** [int(x)] of a float: truncation towards zero. *)
Definition py_int (x : R) : Z :=
  if Rle_dec 0 x then Int_part x else (- Int_part (- x))%Z.

(** The class weights of lines 585-599.  On an empty training split
    every quotient is [0/0], a NaN: the power of a NaN is a NaN again,
    except for the exponent 0, where it is 1, and [int] of a NaN raises
    [ValueError]. *)
Definition class_weights (reweight_class : bool) (train_target : list Z)
    (num_classes : nat) (reweight_class_alpha : R) : result (list Z) :=
  if reweight_class then
    let class_weights :=
      map (fun i =>
             (1 - INR (VisionKs.count_true
                         (map (fun t => bool_decide (t = Z.of_nat i))
                              train_target))
                  / INR (length train_target))%R)
          (seq 0 num_classes) in
    if decide (length train_target = 0 /\ 0 < num_classes) then
      if Req_dec_T reweight_class_alpha 0 then Ok (repeat 1%Z num_classes)
      else Raise ValueError
    else
      Ok (map (fun class_weight =>
                 py_int (Rpower (1 + class_weight) reweight_class_alpha))
              class_weights)
  else Ok (repeat 1%Z num_classes).



(** The random split under method ["gaze_erm"], lines 544-550. *)
Definition train_split_frac : R := 0.8%R.

Definition gaze_erm_masks `{Rng G} (gaze_mask : list bool) (g : G)
  : (list bool * list bool) * G :=
  let '(rand_vec, g') := rand g (length gaze_mask) in
  (zip_with andb gaze_mask (map (fun r => Rltb r train_split_frac) rand_vec),
   zip_with andb gaze_mask (map (fun r => Rleb train_split_frac r) rand_vec),
   g').

End Train.

Module Score.

(** *** [score] (vision_ks.py, lines 712-772)

    Every [ActivationExtractor] is created together with the one forward
    hook that feeds it, so an extractor is identified by the position of
    its hook in the order of registration.  [L] is the type of layers,
    [V] of layer outputs, [O] of model outputs. *)

Record hook_state (L V : Type) := {
  hooks : list (L * option (V -> V));
  layer_to_extractor : gmap string nat
}.
Arguments hooks {L V} _.
Arguments layer_to_extractor {L V} _.

(** Lines 743-745 and 748-750: a new extractor, its hook on [layer], and
    the assignment [layer_to_extractor[name] = extractor]. *)
Definition add_extractor {L V} (st : hook_state L V) (name : string)
    (layer : L) (reduction_fn : option (V -> V)) : hook_state L V :=
  {| hooks := hooks st ++ [(layer, reduction_fn)];
     layer_to_extractor :=
       <[name := length (hooks st)]> (layer_to_extractor st) |}.

(** Lines 737-750.  [layers.items()] is the list of items of the mapping
    in its order. *)
Definition register {L V} (layers : option (list (string * L)))
    (reduction_fns : option (list (V -> V))) : hook_state L V :=
  match layers with
  | None => {| hooks := []; layer_to_extractor := ∅ |}
  | Some items =>
      foldl (fun st (item : string * L) =>
               match reduction_fns with
               | Some fns =>
                   foldl (fun st fn => add_extractor st item.1 item.2 (Some fn))
                     st fns
               | None => add_extractor st item.1 item.2 None
               end)
        {| hooks := []; layer_to_extractor := ∅ |} items
  end.

(** [add_hook] after the forward pass: [out layer] is the last output of
    [layer] in the pass, [None] for a layer the pass did not run, whose
    extractor keeps [activation = None]. *)
Definition activation {L V} (out : L -> option V) (st : hook_state L V)
    (i : nat) : option V :=
  match hooks st !! i with
  | Some (layer, reduction_fn) =>
      match out layer with
      | Some output =>
          Some (match reduction_fn with
                | Some f => f output
                | None => output
                end)
      | None => None
      end
  | None => None
  end.

(** The comprehension of lines 759-762; [.cpu()] on [None] raises. *)
Definition activation_columns {L V} (out : L -> option V)
    (st : hook_state L V) : result (gmap string V) :=
  if decide (map_Forall (fun _ i => is_Some (activation out st i))
               (layer_to_extractor st))
  then Ok (omap (activation out st) (layer_to_extractor st))
  else Raise AttributeError.

Inductive column (O V : Type) :=
  | ClassificationOutputColumn (logits : O)
  | Activation (v : V).
Arguments ClassificationOutputColumn {O V} _.
Arguments Activation {O V} _.

(** The dict of lines 757-763: the unpacked activations come after the
    ["output"] entry and replace it under the same key. *)
Definition _score {L V O} (out : L -> option V) (logits : O)
    (st : hook_state L V) : result (gmap string (column O V)) :=
  acts ← activation_columns out st;
  Ok (((Activation <$> acts) : gmap string (column O V))
        ∪ {[ "output"%string := ClassificationOutputColumn logits ]}).

End Score.

(** ** A concrete generator and concrete inputs

    A deterministic counter serves as generator state wherever a
    statement is evaluated on a concrete input. *)

Definition counter_randint (g high size : nat) : list nat * nat :=
  (map (fun k => (g + k) `mod` high) (seq 0 size), g + size).

Definition counter_rand (g n : nat) : list R * nat :=
  (map (fun k => / INR (g + k + 2))%R (seq 0 n), g + n).

Lemma counter_randint_length g high size :
  length (counter_randint g high size).1 = size.
Proof. simpl. rewrite length_map, length_seq. reflexivity. Qed.

Lemma counter_randint_bound g high size :
  0 < high -> Forall (fun i => i < high) (counter_randint g high size).1.
Proof.
  intros Hh. simpl. apply Forall_forall. intros i Hi.
  apply list_elem_of_In, in_map_iff in Hi as (k & <- & _).
  apply Nat.mod_upper_bound. lia.
Qed.

Lemma counter_rand_length g n : length (counter_rand g n).1 = n.
Proof. simpl. rewrite length_map, length_seq. reflexivity. Qed.

Lemma counter_rand_range g n :
  Forall (fun x => 0 <= x < 1)%R (counter_rand g n).1.
Proof.
  simpl. apply Forall_forall. intros x Hx.
  apply list_elem_of_In, in_map_iff in Hx as (k & <- & _).
  assert (Hk : (2 <= INR (g + k + 2))%R).
  { rewrite plus_INR. simpl. pose proof (pos_INR (g + k)). lra. }
  split.
  - left. apply Rinv_0_lt_compat. lra.
  - rewrite <- Rinv_1. apply Rinv_lt_contravar; lra.
Qed.

#[global] Instance counter_rng : Rng nat := {|
  randint := counter_randint;
  rand := counter_rand;
  randint_length := counter_randint_length;
  randint_bound := counter_randint_bound;
  rand_length := counter_rand_length;
  rand_range := counter_rand_range
|}.

(** An interpretation of the arithmetic for evaluating statements on
    concrete inputs: the operations on finite values as on the reals,
    NaN wherever an operand is not finite or the result is undefined. *)
Definition lift1 (f : R -> R) (x : float) : float :=
  match x with
  | Finite a => Finite (f a)
  | _ => NaN
  end.

Definition lift2 (f : R -> R -> R) (x y : float) : float :=
  match x, y with
  | Finite a, Finite b => Finite (f a b)
  | _, _ => NaN
  end.

Definition real_div (x y : float) : float :=
  match x, y with
  | Finite a, Finite b => if Req_dec_T b 0 then NaN else Finite (a / b)%R
  | _, _ => NaN
  end.

Definition real_sqrt (x : float) : float :=
  match x with
  | Finite a => if Rle_dec 0 a then Finite (sqrt a) else NaN
  | _ => NaN
  end.

Definition real_log (x : float) : float :=
  match x with
  | Finite a => if Rlt_dec 0 a then Finite (ln a) else NaN
  | _ => NaN
  end.

Definition real_sum (xs : list float) : float :=
  foldr (lift2 Rplus) (Finite 0) xs.

Definition real_mean (xs : list float) : float :=
  real_div (real_sum xs) (Finite (INR (length xs))).

Definition real_torch : Torch :=
  {| f_add := lift2 Rplus; f_sub := lift2 Rminus; f_mul := lift2 Rmult;
     f_div := real_div; f_max := lift2 Rmax; f_sqrt := real_sqrt;
     f_exp := lift1 exp; f_log := real_log;
     f_sum := real_sum; f_mean := real_mean |}.

(** An encoder of two layers that leaves its inputs as they are. *)
Definition identity_encoder : Cnc.Sequential :=
  {| Cnc.children := 2; Cnc.run := map (map Finite) |}.

Definition unit_temperature : Cnc.SupervisedContrastiveLoss :=
  {| Cnc.temperature := 1 |}.

(** A datapanel whose only row is a majority row. *)
Definition lonely_anchor_dp : Cnc.datapanel :=
  [ {| Cnc.row_id := 0; Cnc.group_id := 0 |} ].

(** A datapanel with all four groups. *)
Definition four_group_dp : Cnc.datapanel :=
  [ {| Cnc.row_id := 0; Cnc.group_id := 0 |};
    {| Cnc.row_id := 1; Cnc.group_id := 1 |};
    {| Cnc.row_id := 2; Cnc.group_id := 2 |};
    {| Cnc.row_id := 3; Cnc.group_id := 3 |} ].


(** A store holding one scalar loss tensor on the GPU, at reference 0. *)
Definition loss_store : gmap nat VisionKs.tensor_obj :=
  {[ 0 := {| VisionKs.t_data := [1%R]; VisionKs.t_device := VisionKs.Cuda;
             VisionKs.t_requires_grad := true |} ]}.

(** Gaze features lying on the first of the four feature axes. *)
Definition axis (x : R) : list R := [x; 0; 0; 0]%R.

Definition gaze_classifier : VisionKs.Classifier :=
  {| VisionKs.cfg_method := VisionKs.cnc_gaze;
     VisionKs.contrastive_loss := unit_temperature;
     VisionKs.encoder := identity_encoder;
     VisionKs.model := fun xs => xs;
     VisionKs.train_loss_computer := fun outs _ => map (fun _ => 0%R) outs;
     VisionKs.contrastive_weight := (1 / 2)%R |}.


(** Five examples of one label, at distances 0, 1, 1, 2, 2 from the
    first. *)
Definition same_label_batch : VisionKs.batch :=
  {| VisionKs.b_input := map (fun x => [x]) [0; 1; 1; 2; 2]%R;
     VisionKs.b_target := [1; 1; 1; 1; 1]%Z;
     VisionKs.b_group_id := [1; 1; 1; 1; 1]%Z;
     VisionKs.b_gaze_features := map axis [0; 1; 1; 2; 2]%R;
     VisionKs.b_contrastive_input_pair := None |}.

(** Three examples of one label: every anchor is skipped. *)
Definition small_batch : VisionKs.batch :=
  {| VisionKs.b_input := map (fun x => [x]) [0; 1; 2]%R;
     VisionKs.b_target := [1; 1; 1]%Z;
     VisionKs.b_group_id := [1; 1; 1]%Z;
     VisionKs.b_gaze_features := map axis [0; 1; 2]%R;
     VisionKs.b_contrastive_input_pair := None |}.

Definition initial_state (g : nat) : VisionKs.loop_state nat :=
  {| VisionKs.st_heap := ∅; VisionKs.st_rng := g;
     VisionKs.st_contrastive_loss := 0; VisionKs.st_pos_sim := 0;
     VisionKs.st_neg_sim := 0; VisionKs.st_companions := None |}.


(** A configuration for one run of the contrastive method. *)
Definition cnc_config : SaveDir.config :=
  {| SaveDir.train :=
       Some {[ "gaze_split"%string := "True"%string;
               "method"%string := "cnc"%string;
               "lr"%string := "0.001"%string;
               "wd"%string := "0.0"%string;
               "seed"%string := "1"%string ]};
     SaveDir.train_contrastive_config :=
       Some {[ "contrastive_weight"%string := "0.5"%string ]};
     SaveDir.dataset := Some {[ "target_column"%string := "pmx"%string ]};
     SaveDir.dataset_subgroup_columns := Some ["tube"%string];
     SaveDir.model := Some {[ "dropout"%string := "0.1"%string ]} |}.

(** The bit-packing rule as the specification words it: the sum over
    [i] of [2^(i+1)] times attribute [i], attributes numbered from [i]. *)
Fixpoint packed_sum (i : nat) (bits : list Z) : Z :=
  match bits with
  | [] => 0
  | b :: rest => 2 ^ (Z.of_nat i + 1) * b + packed_sum (S i) rest
  end.

(** What the column loop of [train] does to the entries of one row. *)
Fixpoint pack_row (i : nat) (vals : list VisionKs.npval)
    (acc : VisionKs.npval) : VisionKs.npval :=
  match vals with
  | [] => acc
  | v :: rest =>
      pack_row (S i) rest
        (VisionKs.np_add acc (VisionKs.np_scale (2 ^ (Z.of_nat i + 1)) v))
  end.

(** The value of a list of attribute bits, least significant first. *)
Fixpoint bits_value (bits : list Z) : Z :=
  match bits with
  | [] => 0
  | b :: rest => b + 2 * bits_value rest
  end.

(** The suffix of a group name as the labels of an example word it. *)
Fixpoint label_suffix (bits : list Z) (names : list string) : string :=
  match bits, names with
  | b :: bits, name :: names =>
      ("_" +:+ VisionKs.binary_strs (b =? 1)%Z +:+ "_" +:+ name
       +:+ label_suffix bits names)%string
  | _, _ => ""%string
  end.

(** Two layers, numbered, one of them under the name ["output"]; layer
    [l] produces the activation [l + 10]. *)
Definition score_layers : list (string * nat) :=
  [("fc"%string, 0); ("output"%string, 1)].

Definition layer_outputs (l : nat) : option Z := Some (Z.of_nat l + 10)%Z.

(** * Properties *)

(** ** Tensor lemmas *)

Section TensorFacts.

Lemma broadcast_row {A B C} (f : A -> B -> C) x ys :
  broadcast f [x] ys = Ok (map (f x) ys).
Proof. destruct ys as [|y [|y' ys]]; reflexivity. Qed.

Lemma broadcast_scalar {A B C} (f : A -> B -> C) xs y :
  broadcast f xs [y] = Ok (map (fun x => f x y) xs).
Proof. destruct xs as [|x [|x' xs]]; reflexivity. Qed.

Lemma broadcast_same_length {A B C} (f : A -> B -> C) xs ys :
  length xs = length ys -> broadcast f xs ys = Ok (zip_with f xs ys).
Proof.
  intros Hlen. unfold broadcast.
  destruct xs as [|x [|x' xs]], ys as [|y [|y' ys]];
    try discriminate Hlen; try reflexivity.
  rewrite Hlen, Nat.eqb_refl. reflexivity.
Qed.

Lemma zip_with_map_same {A B C D} (f : B -> C -> D) (g : A -> B) (h : A -> C)
    (l : list A) :
  zip_with f (map g l) (map h l) = map (fun a => f (g a) (h a)) l.
Proof. induction l; simpl; congruence. Qed.
End TensorFacts.

(** ** The contrastive loss *)

Section LossFacts.
Context `{Torch}.
Import Cnc.

(** The similarity of the code is the cosine similarity of the
    specification. *)
Lemma cosine_spec (x y : embedding) : cosine x y = spec_cosine x y.
Proof. reflexivity. Qed.

(** With embeddings of a single component the similarity finds no
    dimension 1, whatever the arithmetic. *)
Lemma forward_width_one self enc a ps ns ea :
  run enc [a] = [ea] -> length ea = 1 ->
  forward self (ArgModule enc) (ArgTuple a ps ns) = Raise IndexError.
Proof.
  intros Ha Hw. unfold forward, CosineSimilarity. rewrite Ha. simpl.
  rewrite Hw. reflexivity.
Qed.

(** What [forward] evaluates to on a well-formed call, for embeddings of
    any other width. *)
Lemma forward_eval self enc a ps ns ea :
  run enc [a] = [ea] -> length ea <> 1 ->
  forward self (ArgModule enc) (ArgTuple a ps ns)
  = Ok (spec_loss ea (run enc ps) (run enc ns) (temperature self)).
Proof.
  intros Ha Hw. unfold forward, CosineSimilarity. rewrite Ha.
  change (width [ea]) with (length ea).
  apply Nat.eqb_neq in Hw. rewrite Hw.
  rewrite !broadcast_row. cbn [mbind result_bind].
  unfold t_add. rewrite broadcast_scalar. cbn [mbind result_bind].
  unfold t_sub. rewrite broadcast_same_length
    by (unfold t_log, t_exp, t_div; rewrite !length_map; reflexivity).
  cbn [mbind result_bind]. f_equal. unfold spec_loss.
  unfold t_scale, t_log, t_exp, t_div.
  rewrite !map_map, zip_with_map_same, map_map. reflexivity.
Qed.
End LossFacts.

(** C1, as stated, fails: for an anchor, two positives and a negative
    whose embeddings have a single component the loss raises
    [IndexError] instead of returning a value; the arithmetic is not
    reached. *)
Lemma forward_one_component_raises :
  @Cnc.forward real_torch unit_temperature (Cnc.ArgModule identity_encoder)
    (Cnc.ArgTuple [2]%R [[1]; [3]]%R [[5]]%R)
  = Raise IndexError.
Proof.
  apply (@forward_width_one real_torch unit_temperature identity_encoder
           [2]%R [[1]; [3]]%R [[5]]%R [Finite 2]); reflexivity.
Qed.

(** C1, amended: for an anchor embedding of any width other than 1, a
    non-empty list of positive embeddings and a non-empty list of
    negative embeddings, [forward] returns the mean over the positives
    of the negated
    [log(exp(pos_sim/T)) - log(exp(pos_sim/T) + sum of exp(neg_sim/T))],
    the similarities being the cosine similarities of each embedding
    with the anchor's and every operation being the tensor library's.
    The cosine similarity is the inner product over the product of the
    norms wherever the clamp of the product at [1e-8] leaves it as it
    is. *)
Theorem forward_is_negative_mean_log_prob `{Torch}
    (self : Cnc.SupervisedContrastiveLoss) (enc : Cnc.Sequential)
    (a : Cnc.image) (ps ns : list Cnc.image)
    (ea : Cnc.embedding) (eps ens : list Cnc.embedding) :
  Cnc.run enc [a] = [ea] -> length ea <> 1 ->
  Cnc.run enc ps = eps -> eps <> [] ->
  Cnc.run enc ns = ens -> ens <> [] ->
  Cnc.forward self (Cnc.ArgModule enc) (Cnc.ArgTuple a ps ns)
  = Ok (f_mean
          (map (fun p =>
                  f_mul (Finite (-1))
                    (f_sub
                       (f_log (f_exp (f_div (Cnc.spec_cosine ea p)
                                            (Finite (Cnc.temperature self)))))
                       (f_log
                          (f_add
                             (f_exp (f_div (Cnc.spec_cosine ea p)
                                           (Finite (Cnc.temperature self))))
                             (f_sum
                                (map (fun n =>
                                        f_exp
                                          (f_div (Cnc.spec_cosine ea n)
                                             (Finite (Cnc.temperature self))))
                                     ens))))))
               eps))
  /\
  (forall x y : Cnc.embedding,
      f_max (f_mul (f_sqrt (f_sum (zip_with f_mul x x)))
                   (f_sqrt (f_sum (zip_with f_mul y y))))
            (Finite (/ 100000000)%R)
      = f_mul (f_sqrt (f_sum (zip_with f_mul x x)))
              (f_sqrt (f_sum (zip_with f_mul y y))) ->
      Cnc.spec_cosine x y
      = f_div (f_sum (zip_with f_mul x y))
              (f_mul (f_sqrt (f_sum (zip_with f_mul x x)))
                     (f_sqrt (f_sum (zip_with f_mul y y))))).
Proof.
  intros Ha Hw <- _ <- _. split.
  - apply (forward_eval self enc a ps ns ea Ha Hw).
  - intros x y Hclamp. unfold Cnc.spec_cosine. rewrite Hclamp. reflexivity.
Qed.

Lemma forward_is_negative_mean_log_prob_witness :
  exists loss,
    @Cnc.forward real_torch unit_temperature (Cnc.ArgModule identity_encoder)
      (Cnc.ArgTuple [1; 0]%R [[1; 0]; [0; 1]]%R [[0; 1]]%R) = Ok loss.
Proof.
  eexists.
  apply (@forward_is_negative_mean_log_prob real_torch
           unit_temperature identity_encoder
           [1; 0]%R [[1; 0]; [0; 1]]%R [[0; 1]]%R
           [Finite 1; Finite 0]
           [[Finite 1; Finite 0]; [Finite 0; Finite 1]]
           [[Finite 0; Finite 1]]);
    [reflexivity | simpl; lia | reflexivity | discriminate
     | reflexivity | discriminate].
Defined.

(** C6, as stated, fails: a zero temperature is accepted at construction. *)
Lemma init_accepts_zero_temperature :
  Cnc.init {[ "temperature"%string := 0%R ]} = Ok {| Cnc.temperature := 0 |}
  /\ ~ raises (Cnc.init {[ "temperature"%string := 0%R ]}).
Proof.
  assert (E : Cnc.init {[ "temperature"%string := 0%R ]}
              = Ok {| Cnc.temperature := 0 |}).
  { unfold Cnc.init. rewrite lookup_singleton_eq. reflexivity. }
  split; [exact E |]. intros [e He]. rewrite E in He. discriminate He.
Qed.

(** C6, amended: construction performs no validation.  It raises
    [KeyError] when the configuration has no temperature, and otherwise
    stores whatever temperature the configuration holds (zero and
    negative values included) and raises no error; the loss later
    divides every similarity by the stored value, and that division
    raises no error either, whatever the value and the arithmetic. *)
Theorem init_stores_any_temperature (config : gmap string R) :
  (config !! "temperature"%string = None ->
   Cnc.init config = Raise KeyError)
  /\
  (forall t,
      config !! "temperature"%string = Some t ->
      Cnc.init config = Ok {| Cnc.temperature := t |} /\
      forall (ops : Torch) enc a ps ns ea,
        Cnc.run enc [a] = [ea] -> length ea <> 1 ->
        @Cnc.forward ops {| Cnc.temperature := t |}
          (Cnc.ArgModule enc) (Cnc.ArgTuple a ps ns)
        = Ok (@Cnc.spec_loss ops ea (Cnc.run enc ps) (Cnc.run enc ns) t)).
Proof.
  split.
  - intros Hnone. unfold Cnc.init. rewrite Hnone. reflexivity.
  - intros t Ht. split.
    + unfold Cnc.init. rewrite Ht. reflexivity.
    + intros ops enc a ps ns ea Ha Hw.
      apply (@forward_eval ops {| Cnc.temperature := t |} enc a ps ns ea Ha Hw).
Qed.

Lemma init_stores_any_temperature_witness :
  Cnc.init {[ "temperature"%string := 0%R ]}
  = Ok {| Cnc.temperature := 0%R |}
  /\ Cnc.init (∅ : gmap string R) = Raise KeyError.
Proof.
  split.
  - destruct (init_stores_any_temperature {[ "temperature"%string := 0%R ]})
      as [_ Hsome].
    destruct (Hsome 0%R) as [Hinit _]; [apply lookup_singleton_eq|].
    exact Hinit.
  - destruct (init_stores_any_temperature (∅ : gmap string R)) as [Hnone _].
    apply Hnone, lookup_empty.
Defined.

(** ** The contrastive datapanel *)

Section LoaderFacts.
Context `{Rng G}.
Import Cnc.

Lemma gather_ok {A} (a : list A) (idx : list nat) :
  Forall (fun i => i < length a) idx ->
  exists xs, gather a idx = Ok xs /\ length xs = length idx /\
             Forall (fun x => x ∈ a) xs.
Proof.
  induction 1 as [|i idx Hi _ IH]; simpl.
  - exists []. auto.
  - destruct IH as (xs & -> & Hlen & Hin).
    destruct (lookup_lt_is_Some_2 a i Hi) as [x Hx]. rewrite Hx. simpl.
    exists (x :: xs). split; [reflexivity|]. split; [simpl; congruence|].
    constructor; [eapply list_elem_of_lookup_2; eassumption | assumption].
Qed.

Lemma gather_raise {A} (a : list A) (idx : list nat) e :
  gather a idx = Raise e -> e = IndexError.
Proof.
  induction idx as [|i idx IH]; simpl; [discriminate|].
  destruct (a !! i); [|congruence].
  destruct (gather a idx); simpl; [discriminate|].
  intros [= <-]. apply IH. reflexivity.
Qed.

Lemma random_choice_ok {A} (a : list A) (size : nat) (g : G) :
  a <> [] \/ size = 0 ->
  exists xs,
    random_choice a size g = (Ok xs, (randint g (length a) size).2) /\
    gather a (randint g (length a) size).1 = Ok xs /\
    length xs = size /\ Forall (fun x => x ∈ a) xs.
Proof.
  intros Hne. unfold random_choice.
  destruct (decide (length a = 0 /\ 0 < size)) as [[Ha Hs]|Hn].
  { destruct Hne as [Hne| ->]; [|lia]. destruct a; [congruence|discriminate]. }
  pose proof (randint_length g (length a) size) as Hlen.
  assert (Hb : Forall (fun i => i < length a) (randint g (length a) size).1).
  { destruct (decide (0 < length a)) as [Hpos|Hz].
    - apply randint_bound, Hpos.
    - assert (size = 0) by lia. subst size.
      destruct ((randint g (length a) 0).1); [constructor|discriminate]. }
  destruct (randint g (length a) size) as [idx g']. simpl in *.
  destruct (gather_ok a idx Hb) as (xs & Hg & Hl & Hin).
  exists xs. rewrite Hg. repeat split; [congruence | assumption].
Qed.

Lemma random_choice_raise {A} (a : list A) (size : nat) (g g' : G) e :
  random_choice a size g = (Raise e, g') -> e = ValueError \/ e = IndexError.
Proof.
  unfold random_choice. destruct (decide _).
  - intros [= <- _]. left. reflexivity.
  - destruct (randint g (length a) size) as [idx g1].
    intros [= Hg _]. right. eapply gather_raise, Hg.
Qed.

Lemma row_dict_group_id r : row_dict r !! "group_id"%string = Some (group_id r).
Proof. apply lookup_singleton_eq. Qed.

(** The two draws of the loader, when both strata can be drawn from. *)
Lemma draw_ok (pos neg : datapanel) (num_p num_n : nat) (g : G) :
  pos <> [] \/ num_p = 0 -> neg <> [] \/ num_n = 0 ->
  exists ps ns g',
    match random_choice pos num_p g with
    | (Raise e, g1) => (Raise e, g1)
    | (Ok positive_entry, g1) =>
        match random_choice neg num_n g1 with
        | (Raise e, g2) => (Raise e, g2)
        | (Ok negative_entry, g2) => (Ok (positive_entry, negative_entry), g2)
        end
    end = (Ok (ps, ns), g') /\
    length ps = num_p /\ length ns = num_n /\
    gather pos (randint g (length pos) num_p).1 = Ok ps /\
    gather neg (randint (randint g (length pos) num_p).2
                  (length neg) num_n).1 = Ok ns /\
    Forall (fun x => x ∈ pos) ps /\ Forall (fun x => x ∈ neg) ns.
Proof.
  intros Hp Hn.
  destruct (random_choice_ok pos num_p g Hp) as (ps & -> & Hgp & Hlp & Hip).
  destruct (random_choice_ok neg num_n (randint g (length pos) num_p).2 Hn)
    as (ns & -> & Hgn & Hln & Hin).
  exists ps, ns. eexists. repeat split; assumption.
Qed.

Lemma Forall_stratum (dp : datapanel) (k : Z) (xs : list row) :
  Forall (fun x => x ∈ filter (fun r => group_id r = k) dp) xs ->
  Forall (fun x => x ∈ dp /\ group_id x = k) xs.
Proof.
  intros HF. eapply Forall_impl; [exact HF|]. intros x Hx.
  apply list_elem_of_filter in Hx as [Hk Hx]. split; assumption.
Qed.

Lemma loaded_rows_majority (dp : datapanel) num_a num_p num_n i r :
  cdp_rows (load_contrastive_dp (G:=G) dp num_a num_p num_n) !! i = Some r ->
  group_id r = 0%Z \/ group_id r = 3%Z.
Proof.
  intros Hr. apply list_elem_of_lookup_2 in Hr. simpl in Hr.
  apply list_elem_of_filter in Hr as [Hm _]. exact Hm.
Qed.
End LoaderFacts.

(** C2, as stated, fails: with no minority row to draw from, reading the
    contrastive pair of an anchor raises instead of yielding [num_p]
    positives and [num_n] negatives. *)
Lemma contrastive_pair_empty_stratum_raises :
  Cnc.cdp_rows (Cnc.load_contrastive_dp (G:=nat) lonely_anchor_dp 1 1 1) !! 0
  = Some {| Cnc.row_id := 0; Cnc.group_id := 0 |}
  /\ Cnc.contrastive_pair_at (Cnc.load_contrastive_dp lonely_anchor_dp 1 1 1) 0 0
     = (Raise ValueError, 0)
  /\ ~ exists ps ns g',
         Cnc.contrastive_pair_at
           (Cnc.load_contrastive_dp lonely_anchor_dp 1 1 1) 0 0
         = (Ok (ps, ns), g') /\ length ps = 1 /\ length ns = 1.
Proof.
  assert (E : Cnc.contrastive_pair_at
                (Cnc.load_contrastive_dp lonely_anchor_dp 1 1 1) 0 0
              = (Raise ValueError, 0)) by reflexivity.
  split; [reflexivity|]. split; [exact E|].
  intros (ps & ns & g' & Hp & _). rewrite E in Hp. discriminate Hp.
Qed.

(** C2, amended: every row of the collection returned by
    [load_contrastive_dp] has [group_id] 0 or 3; and whenever the stratum
    the positives are drawn from is non-empty (or [num_p] is 0) and
    likewise for the negatives, its contrastive pair holds exactly [num_p]
    positives and [num_n] negatives, each the row found at an index that
    [randint] drew (uniformly, with replacement) from the stratum: for an
    anchor of group 0 the positives have group 2 and the negatives group 1,
    for an anchor of group 3 the positives have group 1 and the negatives
    group 2. *)
Theorem load_contrastive_dp_pairs `{Rng G} (dp : Cnc.datapanel)
    (num_a num_p num_n i : nat) (r : Cnc.row) (g : G) :
  Cnc.cdp_rows (Cnc.load_contrastive_dp (G:=G) dp num_a num_p num_n) !! i
  = Some r ->
  (Cnc.group_id r = 0%Z \/ Cnc.group_id r = 3%Z) /\
  forall positives negatives,
    positives = filter (fun x => Cnc.group_id x
                  = if decide (Cnc.group_id r = 0%Z) then 2%Z else 1%Z) dp ->
    negatives = filter (fun x => Cnc.group_id x
                  = if decide (Cnc.group_id r = 0%Z) then 1%Z else 2%Z) dp ->
    positives <> [] \/ num_p = 0 ->
    negatives <> [] \/ num_n = 0 ->
    exists ps ns g',
      Cnc.contrastive_pair_at (Cnc.load_contrastive_dp dp num_a num_p num_n) i g
      = (Ok (ps, ns), g') /\
      length ps = num_p /\ length ns = num_n /\
      gather positives (randint g (length positives) num_p).1 = Ok ps /\
      gather negatives (randint (randint g (length positives) num_p).2
                          (length negatives) num_n).1 = Ok ns /\
      (Cnc.group_id r = 0%Z ->
         Forall (fun x => x ∈ dp /\ Cnc.group_id x = 2%Z) ps /\
         Forall (fun x => x ∈ dp /\ Cnc.group_id x = 1%Z) ns) /\
      (Cnc.group_id r = 3%Z ->
         Forall (fun x => x ∈ dp /\ Cnc.group_id x = 1%Z) ps /\
         Forall (fun x => x ∈ dp /\ Cnc.group_id x = 2%Z) ns).
Proof.
  intros Hr. pose proof (loaded_rows_majority dp num_a num_p num_n i r Hr) as Hm.
  split; [exact Hm|].
  intros positives negatives -> -> Hp Hn.
  unfold Cnc.contrastive_pair_at. rewrite Hr. simpl.
  unfold Cnc.contrastive_loader. rewrite row_dict_group_id.
  destruct (decide (Cnc.group_id r = 0%Z)) as [H0|H0].
  - destruct (draw_ok _ _ num_p num_n g Hp Hn)
      as (ps & ns & g' & -> & Hlp & Hln & Hgp & Hgn & Hip & Hin).
    exists ps, ns, g'. repeat split; try assumption.
    + apply Forall_stratum, Hip.
    + apply Forall_stratum, Hin.
    + congruence.
    + congruence.
  - destruct Hm as [Hm|H3]; [contradiction|].
    destruct (decide (Cnc.group_id r = 3%Z)) as [_|]; [|contradiction].
    destruct (draw_ok _ _ num_p num_n g Hp Hn)
      as (ps & ns & g' & -> & Hlp & Hln & Hgp & Hgn & Hip & Hin).
    exists ps, ns, g'. repeat split; try assumption.
    + congruence.
    + congruence.
    + apply Forall_stratum, Hip.
    + apply Forall_stratum, Hin.
Qed.

Lemma load_contrastive_dp_pairs_witness :
  exists ps ns g',
    Cnc.contrastive_pair_at (Cnc.load_contrastive_dp four_group_dp 1 2 3) 1 0
    = (Ok (ps, ns), g') /\ length ps = 2 /\ length ns = 3.
Proof.
  destruct (load_contrastive_dp_pairs four_group_dp 1 2 3 1
              {| Cnc.row_id := 3; Cnc.group_id := 3 |} 0) as [_ Hpair].
  - reflexivity.
  - destruct (Hpair _ _ eq_refl eq_refl) as (ps & ns & g' & Hp & Hlp & Hln & _).
    + left. discriminate.
    + left. discriminate.
    + exists ps, ns, g'. repeat split; assumption.
Defined.

(** C9: [contrastive_loader] leaves [positive_entry] and [negative_entry]
    unbound, and so fails, exactly for an anchor whose [group_id] is
    neither 0 nor 3; reading the contrastive pair of a row of the
    collection that [load_contrastive_dp] returns never hits that failure,
    the majority mask having kept only rows of group 0 or 3. *)
Theorem contrastive_loader_unbound_unreachable :
  (forall G (HG : Rng G) (gid : Z)
          (positive_entries negative_entries : Cnc.datapanel * Cnc.datapanel)
          (num_p num_n : nat) (g : G),
      (Cnc.contrastive_loader {[ "group_id"%string := gid ]}
         positive_entries negative_entries num_p num_n g).1
      = Raise UnboundLocalError
      <-> gid <> 0%Z /\ gid <> 3%Z)
  /\
  (forall G (HG : Rng G) (dp : Cnc.datapanel) (num_a num_p num_n i : nat)
          (g : G),
      (Cnc.contrastive_pair_at
         (Cnc.load_contrastive_dp dp num_a num_p num_n) i g).1
      <> Raise UnboundLocalError).
Proof.
  assert (Hdraw : forall G (HG : Rng G) (pos neg : Cnc.datapanel)
                         (num_p num_n : nat) (g : G),
     (match random_choice pos num_p g with
      | (Raise e, g1) => (Raise e, g1)
      | (Ok positive_entry, g1) =>
          match random_choice neg num_n g1 with
          | (Raise e, g2) => (Raise e, g2)
          | (Ok negative_entry, g2) => (Ok (positive_entry, negative_entry), g2)
          end
      end).1 <> Raise UnboundLocalError).
  { intros G HG pos neg num_p num_n g.
    destruct (random_choice pos num_p g) as [[ps|e] g1] eqn:E1.
    - destruct (random_choice neg num_n g1) as [[ns|e] g2] eqn:E2.
      + discriminate.
      + simpl. intros [= ->].
        destruct (random_choice_raise _ _ _ _ _ E2); discriminate.
    - simpl. intros [= ->].
      destruct (random_choice_raise _ _ _ _ _ E1); discriminate. }
  assert (Hloader : forall G (HG : Rng G) gid pe ne num_p num_n (g : G),
     (Cnc.contrastive_loader {[ "group_id"%string := gid ]} pe ne num_p num_n g).1
     = Raise UnboundLocalError <-> gid <> 0%Z /\ gid <> 3%Z).
  { intros G HG gid [p0 p3] [n0 n3] num_p num_n g.
    unfold Cnc.contrastive_loader. rewrite lookup_singleton_eq.
    destruct (decide (gid = 0%Z)) as [H0|H0];
      [|destruct (decide (gid = 3%Z)) as [H3|H3]].
    - split; [intros E; exfalso; eapply Hdraw; exact E | tauto].
    - split; [intros E; exfalso; eapply Hdraw; exact E | tauto].
    - split; [tauto | reflexivity]. }
  split; [exact Hloader|].
  intros G HG dp num_a num_p num_n i g E.
  unfold Cnc.contrastive_pair_at in E.
  destruct (Cnc.cdp_rows _ !! i) as [r|] eqn:Hr; [|discriminate E].
  pose proof (loaded_rows_majority dp num_a num_p num_n i r Hr) as Hm.
  apply (proj1 (Hloader G HG (Cnc.group_id r) (_, _) (_, _) num_p num_n g))
    in E.
  tauto.
Qed.

(** ** Group ids *)

Section GroupIdFacts.
Import VisionKs.
Local Open Scope Z_scope.

Lemma pack_columns_lookup cols : forall i group_ids r acc vals,
  group_ids !! r = Some acc ->
  Forall2 (fun (col : list npval) v => col !! r = Some v) cols vals ->
  pack_columns i cols group_ids !! r = Some (pack_row i vals acc).
Proof.
  induction cols as [|col cols IH]; intros i group_ids r acc vals Hacc Hcols.
  - inversion Hcols; subst. exact Hacc.
  - inversion Hcols as [|? v ? vals' Hv Hrest]; subst. simpl.
    apply IH; [|exact Hrest].
    rewrite lookup_zip_with, Hacc. simpl.
    change (map ?f col) with (f <$> col).
    rewrite list_lookup_fmap, Hv. reflexivity.
Qed.

Lemma pack_row_num bits : forall i acc,
  pack_row i (map Num bits) (Num acc) = Num (acc + packed_sum i bits).
Proof.
  induction bits as [|b bits IH]; intros i acc; simpl.
  - f_equal. lia.
  - rewrite IH. f_equal. lia.
Qed.

Lemma pack_row_nan_acc vals : forall i, pack_row i vals NaN = NaN.
Proof. induction vals as [|v vals IH]; intros i; simpl; auto. Qed.

Lemma pack_row_nan vals : forall i acc,
  NaN ∈ vals -> pack_row i vals acc = NaN.
Proof.
  induction vals as [|v vals IH]; intros i acc Hin.
  - inversion Hin.
  - simpl. apply elem_of_cons in Hin as [<-|Hin].
    + destruct acc; simpl; apply pack_row_nan_acc.
    + apply IH, Hin.
Qed.

Lemma compute_group_ids_lookup target cols r acc vals :
  target !! r = Some acc ->
  Forall2 (fun (col : list npval) v => col !! r = Some v) cols vals ->
  compute_group_ids target cols !! r
  = Some (astype_int (if isnan (pack_row 0 vals acc) then Num (-1)
                      else pack_row 0 vals acc)).
Proof.
  intros Hacc Hcols. unfold compute_group_ids.
  change (map ?f ?l) with (f <$> l). rewrite !list_lookup_fmap.
  destruct cols as [|col cols].
  - inversion Hcols; subst. simpl. rewrite Hacc. reflexivity.
  - change (0 <? length (col :: cols))%nat with true. cbv iota.
    rewrite (pack_columns_lookup _ _ _ _ _ _ Hacc Hcols). reflexivity.
Qed.

Lemma packed_sum_bits_value bits : forall i,
  packed_sum i bits = 2 ^ (Z.of_nat i + 1) * bits_value bits.
Proof.
  induction bits as [|b bits IH]; intros i; simpl packed_sum; simpl bits_value.
  - lia.
  - rewrite IH. replace (Z.of_nat (S i) + 1) with (Z.succ (Z.of_nat i + 1)) by lia.
    rewrite Z.pow_succ_r by lia. ring.
Qed.

Lemma bits_value_nonneg bits :
  Forall (fun b => b = 0 \/ b = 1) bits -> 0 <= bits_value bits.
Proof. induction 1 as [|b bits Hb _ IH]; simpl; lia. Qed.

Lemma bits_value_decode bits : forall ndx b,
  Forall (fun b => b = 0 \/ b = 1) bits ->
  bits !! ndx = Some b ->
  (bits_value bits / 2 ^ Z.of_nat ndx) mod 2 = b.
Proof.
  induction bits as [|b0 bits IH]; intros ndx b Hbits Hb; [discriminate|].
  inversion Hbits as [|? ? Hb0 Hrest]; subst.
  pose proof (bits_value_nonneg bits Hrest) as Hnn.
  destruct ndx as [|ndx]; simpl in Hb.
  - injection Hb as <-. simpl bits_value. change (2 ^ Z.of_nat 0) with 1.
    rewrite Z.div_1_r. symmetry.
    apply Z.mod_unique with (q := bits_value bits); lia.
  - simpl bits_value.
    replace (Z.of_nat (S ndx)) with (Z.succ (Z.of_nat ndx)) by lia.
    rewrite Z.pow_succ_r by lia.
    rewrite <- Z.div_div by lia.
    replace ((b0 + 2 * bits_value bits) / 2) with (bits_value bits).
    + apply IH; assumption.
    + destruct Hb0 as [->| ->].
      * apply Z.div_unique with (r := 0); lia.
      * apply Z.div_unique with (r := 1); lia.
Qed.
End GroupIdFacts.

(** C4, as stated, fails: with a target label outside [{0, 1}] two
    different examples receive the same non-negative [group_id], so the
    original pair cannot be recovered from it; the decoding that [train]
    uses for the group names returns target 0 and attribute 1 for the
    example with target 2 and attribute 0. *)
Lemma group_id_round_trip_fails :
  VisionKs.compute_group_ids [VisionKs.Num 2] [[VisionKs.Num 0]] = [2%Z]
  /\ VisionKs.compute_group_ids [VisionKs.Num 0] [[VisionKs.Num 1]] = [2%Z]
  /\ Z.b2z (VisionKs.decode_target 2) <> 2%Z
  /\ Z.b2z (VisionKs.decode_subgroup 2 0) <> 0%Z.
Proof. repeat split; try reflexivity; discriminate. Qed.

(** C4, amended: the stored [group_id] of an example is its target label
    plus the sum over [i] of [2^(i+1)] times subgroup attribute [i]; an
    example with a missing subgroup attribute gets [group_id = -1]; and
    when the target label and every attribute are in [{0, 1}], the
    [group_id] is non-negative and decoding it gives back the target and
    every attribute. *)
Theorem group_id_bit_packing (target : list VisionKs.npval)
    (subgroup_columns : list (list VisionKs.npval)) (r : nat) :
  (forall t bits,
      target !! r = Some (VisionKs.Num t) ->
      Forall2 (fun (col : list VisionKs.npval) b =>
                 col !! r = Some (VisionKs.Num b)) subgroup_columns bits ->
      VisionKs.compute_group_ids target subgroup_columns !! r
      = Some (t + packed_sum 0 bits)%Z)
  /\
  (forall x vals,
      target !! r = Some x ->
      Forall2 (fun (col : list VisionKs.npval) v => col !! r = Some v)
        subgroup_columns vals ->
      VisionKs.NaN ∈ vals ->
      VisionKs.compute_group_ids target subgroup_columns !! r = Some (-1)%Z)
  /\
  (forall t bits gid,
      target !! r = Some (VisionKs.Num t) ->
      Forall2 (fun (col : list VisionKs.npval) b =>
                 col !! r = Some (VisionKs.Num b)) subgroup_columns bits ->
      t = 0%Z \/ t = 1%Z ->
      Forall (fun b => b = 0 \/ b = 1)%Z bits ->
      VisionKs.compute_group_ids target subgroup_columns !! r = Some gid ->
      (0 <= gid)%Z /\
      Z.b2z (VisionKs.decode_target gid) = t /\
      forall ndx b, bits !! ndx = Some b ->
                    Z.b2z (VisionKs.decode_subgroup gid ndx) = b).
Proof.
  assert (Hpack : forall t bits,
      target !! r = Some (VisionKs.Num t) ->
      Forall2 (fun (col : list VisionKs.npval) b =>
                 col !! r = Some (VisionKs.Num b)) subgroup_columns bits ->
      VisionKs.compute_group_ids target subgroup_columns !! r
      = Some (t + packed_sum 0 bits)%Z).
  { intros t bits Ht Hbits.
    rewrite (compute_group_ids_lookup target subgroup_columns r
               (VisionKs.Num t) (map VisionKs.Num bits) Ht).
    - rewrite pack_row_num. reflexivity.
    - clear -Hbits. induction Hbits; simpl; constructor; assumption. }
  split; [exact Hpack|]. split.
  - intros x vals Hx Hvals Hnan.
    rewrite (compute_group_ids_lookup target subgroup_columns r x vals Hx Hvals).
    rewrite (pack_row_nan vals 0 x Hnan). reflexivity.
  - intros t bits gid Ht Hbits Ht01 Hb01 Hgid.
    rewrite (Hpack t bits Ht Hbits) in Hgid. injection Hgid as <-.
    rewrite packed_sum_bits_value. change (2 ^ (Z.of_nat 0 + 1))%Z with 2%Z.
    pose proof (bits_value_nonneg bits Hb01) as Hnn.
    split; [lia|]. split.
    + unfold VisionKs.decode_target.
      replace ((t + 2 * bits_value bits) mod 2)%Z with t.
      * destruct Ht01 as [->| ->]; reflexivity.
      * apply Z.mod_unique with (q := bits_value bits); lia.
    + intros ndx b Hb. unfold VisionKs.decode_subgroup.
      rewrite Z.quot_div_nonneg by lia.
      replace (Z.of_nat ndx + 1)%Z with (Z.succ (Z.of_nat ndx)) by lia.
      rewrite Z.pow_succ_r by lia. rewrite <- Z.div_div by lia.
      replace ((t + 2 * bits_value bits) / 2)%Z with (bits_value bits).
      * rewrite (bits_value_decode bits ndx b Hb01 Hb).
        assert (Hbb : (b = 0 \/ b = 1)%Z).
        { eapply Forall_forall in Hb01; [exact Hb01|].
          eapply list_elem_of_lookup_2, Hb. }
        destruct Hbb as [->| ->]; reflexivity.
      * destruct Ht01 as [->| ->].
        -- apply Z.div_unique with (r := 0%Z); lia.
        -- apply Z.div_unique with (r := 1%Z); lia.
Qed.

Lemma group_id_bit_packing_witness :
  VisionKs.compute_group_ids [VisionKs.Num 1]
    [[VisionKs.Num 1]; [VisionKs.Num 0]] !! 0 = Some 3%Z
  /\ Z.b2z (VisionKs.decode_target 3) = 1%Z
  /\ Z.b2z (VisionKs.decode_subgroup 3 0) = 1%Z.
Proof.
  destruct (group_id_bit_packing [VisionKs.Num 1]
              [[VisionKs.Num 1]; [VisionKs.Num 0]] 0) as (Hpack & _ & Hdecode).
  assert (Hcols : Forall2 (fun (col : list VisionKs.npval) b =>
                             col !! 0 = Some (VisionKs.Num b))
                    [[VisionKs.Num 1]; [VisionKs.Num 0]] [1%Z; 0%Z])
    by (repeat constructor).
  pose proof (Hpack 1%Z [1%Z; 0%Z] eq_refl Hcols) as Hgid.
  assert (Hbits : Forall (fun b => b = 0 \/ b = 1)%Z [1%Z; 0%Z])
    by (repeat constructor; auto).
  destruct (Hdecode 1%Z [1%Z; 0%Z] 3%Z eq_refl Hcols
              (or_intror eq_refl) Hbits Hgid) as (_ & Ht & Hb).
  split; [exact Hgid|]. split; [exact Ht|]. apply Hb. reflexivity.
Defined.

(** ** Robust sampler weights *)

Section WeightFacts.
Import VisionKs.

Lemma lookup_repeat {A} (x : A) n i : i < n -> repeat x n !! i = Some x.
Proof.
  revert i. induction n as [|n IH]; intros i Hi; [lia|].
  destruct i as [|i]; simpl; [reflexivity|]. apply IH. lia.
Qed.


Lemma count_true_map {A} (P : A -> Prop) `{forall x, Decision (P x)}
    (l : list A) :
  count_true (map (fun x => bool_decide (P x)) l) = length (filter P l).
Proof.
  unfold count_true. induction l as [|x l IH]; [reflexivity|].
  simpl. rewrite !filter_cons.
  destruct (decide (P x)) as [Hp|Hp].
  - rewrite (bool_decide_eq_true_2 _ Hp).
    destruct (decide (true = true)); [|congruence]. simpl. congruence.
  - rewrite (bool_decide_eq_false_2 _ Hp).
    destruct (decide (false = true)); [discriminate|]. exact IH.
Qed.


End WeightFacts.




(** ** [free_gpu] *)

Section FreeGpuFacts.
Import VisionKs.

Lemma alloc_spec (h : gmap nat tensor_obj) o :
  h ⊆ (alloc h o).2 /\ (alloc h o).2 !! (alloc h o).1 = Some o.
Proof.
  unfold alloc. simpl. split.
  - apply insert_subseteq, not_elem_of_dom, is_fresh.
  - apply lookup_insert_eq.
Qed.

Lemma detach_spec (h : gmap nat tensor_obj) l :
  is_Some (h !! l) ->
  exists l' h', detach h l = Ok (l', h') /\ h ⊆ h' /\ is_Some (h' !! l').
Proof.
  intros [o Ho]. unfold detach. rewrite Ho.
  destruct (alloc_spec h {| t_data := t_data o; t_device := t_device o;
                            t_requires_grad := false |}) as [Hsub Hl].
  destruct (alloc h _) as [l' h']. simpl in *.
  exists l', h'. split; [reflexivity|]. split; [exact Hsub | eauto].
Qed.

Lemma cpu_spec (h : gmap nat tensor_obj) l :
  is_Some (h !! l) ->
  exists l' h', cpu h l = Ok (l', h') /\ h ⊆ h' /\ is_Some (h' !! l').
Proof.
  intros [o Ho]. unfold cpu. rewrite Ho. destruct (t_device o).
  - exists l, h. split; [reflexivity|]. split; [reflexivity | eauto].
  - destruct (alloc_spec h {| t_data := t_data o; t_device := Cpu;
                              t_requires_grad := t_requires_grad o |})
      as [Hsub Hl].
    destruct (alloc h _) as [l' h']. simpl in *.
    exists l', h'. split; [reflexivity|]. split; [exact Hsub | eauto].
Qed.

(** The loop only allocates: every object of the store it starts from is
    still there, unchanged, when it ends; and its frame binds no name
    other than [tensor]. *)
Lemma free_gpu_loop_spec (delete : bool) (tensors : list nat) :
  forall (h : gmap nat tensor_obj) (env : gmap string nat),
    Forall (fun l => is_Some (h !! l)) tensors ->
    dom env ⊆ {[ "tensor"%string ]} ->
    exists h' env',
      free_gpu_loop tensors delete h env = Ok (h', env') /\ h ⊆ h' /\
      dom env' ⊆ ({[ "tensor"%string ]} : gset string).
Proof.
  induction tensors as [|t tensors IH]; intros h env Hts Henv.
  - exists h, env. split; [reflexivity|]. split; [reflexivity | exact Henv].
  - inversion Hts as [|? ? Ht Hrest]; subst. simpl.
    destruct (detach_spec h t Ht) as (d & h1 & -> & Hsub1 & Hd). simpl.
    destruct (cpu_spec h1 d Hd) as (c & h2 & -> & Hsub2 & Hc). simpl.
    destruct (IH h2 (if delete
                     then base.delete "tensor"%string
                            (<["tensor"%string := c]>
                               (<["tensor"%string := t]> env))
                     else <["tensor"%string := c]>
                            (<["tensor"%string := t]> env)))
      as (h' & env' & Hloop & Hsub & Hdom).
    + eapply Forall_impl; [exact Hrest|]. intros l Hl. simpl in Hl.
      eapply lookup_weaken_is_Some; [exact Hl|]. etrans; eassumption.
    + destruct delete.
      * rewrite dom_delete_L, !dom_insert_L.
        intros k Hk. apply elem_of_difference in Hk as [Hk _].
        apply elem_of_union in Hk as [Hk|Hk]; [exact Hk|].
        apply elem_of_union in Hk as [Hk|Hk]; [exact Hk | apply Henv, Hk].
      * rewrite !dom_insert_L.
        intros k Hk.
        apply elem_of_union in Hk as [Hk|Hk]; [exact Hk|].
        apply elem_of_union in Hk as [Hk|Hk]; [exact Hk | apply Henv, Hk].
    + exists h', env'. split; [exact Hloop|]. split; [|exact Hdom].
      etrans; [exact Hsub1|]. etrans; eassumption.
Qed.

Lemma free_gpu_spec (delete : bool) (tensors : list nat)
    (h : gmap nat tensor_obj) :
  Forall (fun l => is_Some (h !! l)) tensors ->
  exists h', free_gpu tensors delete h = Ok h' /\ h ⊆ h'.
Proof.
  intros Hts. unfold free_gpu.
  destruct (free_gpu_loop_spec delete tensors h ∅ Hts)
    as (h' & env' & -> & Hsub & _);
    [rewrite dom_empty_L; apply empty_subseteq|].
  exists h'. split; [reflexivity | exact Hsub].
Qed.

Lemma item_weaken (h h' : gmap nat tensor_obj) l :
  h ⊆ h' -> is_Some (h !! l) -> item h' l = item h l.
Proof.
  intros Hsub [o Ho]. unfold item.
  rewrite (lookup_weaken h h' l o Ho Hsub), Ho. reflexivity.
Qed.
End FreeGpuFacts.

(** C10: [free_gpu] has no effect its caller can see.  Whatever the
    list and the flag, it returns normally, and every tensor object that
    existed before the call, those of the list included, is still in the
    store, unchanged: only the function's own name [tensor] was rebound or
    deleted.  So the running sums of [training_step] read, after the
    release of the anchor's loss, the values they would have read before
    it. *)
Theorem free_gpu_no_visible_effect :
  (forall (tensors : list nat) (delete : bool)
          (h : gmap nat VisionKs.tensor_obj),
      Forall (fun l => is_Some (h !! l)) tensors ->
      exists h' env',
        VisionKs.free_gpu_loop tensors delete h ∅ = Ok (h', env') /\
        VisionKs.free_gpu tensors delete h = Ok h' /\
        dom env' ⊆ ({[ "tensor"%string ]} : gset string) /\
        (forall l o, h !! l = Some o -> h' !! l = Some o) /\
        (forall l, is_Some (h !! l) -> VisionKs.item h' l = VisionKs.item h l))
  /\
  (forall G (st : VisionKs.loop_state G) (cs : VisionKs.companions)
          (c_loss pos_sim_ neg_sim_ : nat) (x y z : R),
      VisionKs.item (VisionKs.st_heap st) c_loss = Ok x ->
      VisionKs.item (VisionKs.st_heap st) pos_sim_ = Ok y ->
      VisionKs.item (VisionKs.st_heap st) neg_sim_ = Ok z ->
      exists st',
        VisionKs.accumulate st cs c_loss pos_sim_ neg_sim_ = Ok st' /\
        VisionKs.st_contrastive_loss st'
        = (VisionKs.st_contrastive_loss st + x)%R /\
        VisionKs.st_pos_sim st' = (VisionKs.st_pos_sim st + y)%R /\
        VisionKs.st_neg_sim st' = (VisionKs.st_neg_sim st + z)%R /\
        VisionKs.item (VisionKs.st_heap st') c_loss = Ok x /\
        forall l o, VisionKs.st_heap st !! l = Some o ->
                    VisionKs.st_heap st' !! l = Some o).
Proof.
  split.
  - intros tensors delete h Hts.
    destruct (free_gpu_loop_spec delete tensors h ∅ Hts)
      as (h' & env' & Hloop & Hsub & Hdom).
    { rewrite dom_empty_L. apply empty_subseteq. }
    exists h', env'. split; [exact Hloop|]. split.
    { unfold VisionKs.free_gpu. rewrite Hloop. reflexivity. }
    split; [exact Hdom|]. split.
    + intros l o Ho. eapply lookup_weaken; eassumption.
    + intros l Hl. apply item_weaken; assumption.
  - intros G st cs c_loss pos_sim_ neg_sim_ x y z Hx Hy Hz.
    assert (Hsome : forall l v, VisionKs.item (VisionKs.st_heap st) l = Ok v ->
                                is_Some (VisionKs.st_heap st !! l)).
    { intros l v. unfold VisionKs.item.
      destruct (VisionKs.st_heap st !! l); [eauto | discriminate]. }
    destruct (free_gpu_spec true [c_loss] (VisionKs.st_heap st))
      as (h' & Hfree & Hsub).
    { constructor; [eapply Hsome, Hx | constructor]. }
    unfold VisionKs.accumulate. rewrite Hfree. simpl.
    rewrite (item_weaken _ h' c_loss Hsub (Hsome _ _ Hx)), Hx. simpl.
    rewrite (item_weaken _ h' pos_sim_ Hsub (Hsome _ _ Hy)), Hy. simpl.
    rewrite (item_weaken _ h' neg_sim_ Hsub (Hsome _ _ Hz)), Hz. simpl.
    eexists. split; [reflexivity|]. simpl.
    repeat split.
    + rewrite (item_weaken _ h' c_loss Hsub (Hsome _ _ Hx)). exact Hx.
    + intros l o Ho. eapply lookup_weaken; eassumption.
Qed.

Lemma free_gpu_no_visible_effect_witness :
  exists h',
    VisionKs.free_gpu [0] true loss_store = Ok h' /\
    VisionKs.item h' 0 = Ok 1%R.
Proof.
  destruct free_gpu_no_visible_effect as [Hfree _].
  destruct (Hfree [0] true loss_store) as (h' & env' & _ & Hf & _ & _ & Hitem).
  - constructor; [|constructor]. eexists. apply lookup_singleton_eq.
  - exists h'. split; [exact Hf|]. rewrite Hitem.
    + unfold VisionKs.item, loss_store. rewrite lookup_singleton_eq. reflexivity.
    + eexists. apply lookup_singleton_eq.
Defined.

(** ** Sorting and the median *)

Section MedianFacts.
Import VisionKs.
Local Open Scope R_scope.

Lemma Rleb_true x y : x <= y -> Rleb x y = true.
Proof. intros Hxy. unfold Rleb. destruct (Rle_dec x y); [reflexivity|lra]. Qed.

Lemma Rleb_false x y : y < x -> Rleb x y = false.
Proof. intros Hxy. unfold Rleb. destruct (Rle_dec x y); [lra|reflexivity]. Qed.

Lemma Rltb_true x y : x < y -> Rltb x y = true.
Proof. intros Hxy. unfold Rltb. destruct (Rlt_dec x y); [reflexivity|lra]. Qed.

Lemma Rltb_false x y : y <= x -> Rltb x y = false.
Proof. intros Hxy. unfold Rltb. destruct (Rlt_dec x y); [lra|reflexivity]. Qed.

Lemma Rleb_spec x y : Rleb x y = true <-> x <= y.
Proof. unfold Rleb. destruct (Rle_dec x y); split; intros; auto; discriminate. Qed.

Lemma Rltb_spec x y : Rltb x y = true <-> x < y.
Proof. unfold Rltb. destruct (Rlt_dec x y); split; intros; auto; discriminate. Qed.

Lemma insert_sorted_Permutation x l : Permutation (insert_sorted x l) (x :: l).
Proof.
  induction l as [|y l IH]; simpl; [reflexivity|].
  destruct (Rleb x y); [reflexivity|].
  rewrite IH. apply perm_swap.
Qed.

Lemma sort_asc_Permutation l : Permutation (sort_asc l) l.
Proof.
  induction l as [|x l IH]; simpl; [reflexivity|].
  rewrite insert_sorted_Permutation. constructor. exact IH.
Qed.

Lemma insert_sorted_sorted x l :
  StronglySorted Rle l -> StronglySorted Rle (insert_sorted x l).
Proof.
  induction 1 as [|y l Hl IH Hy]; simpl.
  - repeat constructor.
  - destruct (Rleb x y) eqn:E.
    + apply Rleb_spec in E. constructor; [constructor; assumption|].
      constructor; [exact E|].
      eapply Forall_impl; [exact Hy|]. intros z Hz. simpl in Hz. lra.
    + assert (Hyx : y <= x).
      { destruct (Rle_dec x y) as [Hle|Hnle].
        - apply Rleb_true in Hle. congruence.
        - lra. }
      constructor; [exact IH|].
      rewrite insert_sorted_Permutation. constructor; assumption.
Qed.

Lemma sort_asc_sorted l : StronglySorted Rle (sort_asc l).
Proof.
  induction l as [|x l IH]; simpl; [constructor|].
  apply insert_sorted_sorted, IH.
Qed.

(** A list that is already in ascending order is its own sorting. *)
Lemma sort_asc_fixed l : StronglySorted Rle l -> sort_asc l = l.
Proof.
  induction 1 as [|x l Hl IH Hx]; simpl; [reflexivity|].
  rewrite IH. destruct l as [|y l]; [reflexivity|]. simpl.
  inversion Hx; subst. rewrite Rleb_true by assumption. reflexivity.
Qed.

Lemma median_ok (xs : tensor1) :
  xs <> [] ->
  exists alpha,
    median xs = Ok alpha /\
    sort_asc xs !! ((length xs - 1) `div` 2)%nat = Some alpha.
Proof.
  intros Hne. unfold median.
  destruct (lookup_lt_is_Some_2 (sort_asc xs) ((length xs - 1) `div` 2)%nat)
    as [alpha Ha].
  - rewrite (Permutation_length (sort_asc_Permutation xs)).
    destruct xs as [|x xs]; [congruence|]. simpl length.
    apply Nat.le_lt_trans with (m := (S (length xs) - 1)%nat);
      [apply Nat.Div0.div_le_upper_bound; lia | lia].
  - exists alpha. rewrite Ha. split; reflexivity.
Qed.
End MedianFacts.

(** ** Companions by gaze distance *)

Section GazeFacts.
Import VisionKs.
Local Open Scope R_scope.

Lemma norm_axis x : 0 <= x -> norm [x - 0; 0 - 0; 0 - 0; 0 - 0] = x.
Proof.
  intros Hx. unfold norm, dot, t_sum. simpl.
  replace ((x - 0) * (x - 0) + ((0 - 0) * (0 - 0)
            + ((0 - 0) * (0 - 0) + ((0 - 0) * (0 - 0) + 0))))
    with (x * x) by ring.
  apply sqrt_square, Hx.
Qed.

Lemma gaze_distances_axis ds :
  Forall (fun d => 0 <= d) ds -> gaze_distances (map axis ds) (axis 0) = ds.
Proof.
  unfold gaze_distances.
  induction 1 as [|d ds Hd _ IH]; simpl; [reflexivity|].
  f_equal; [apply norm_axis, Hd | exact IH].
Qed.

Lemma gfeat_dist_of_axis `{Rng G} (b : batch) (ds : list R) (g : G) :
  b_gaze_features b = map axis (0 :: ds) ->
  Forall (fun d => 0 <= d) ds ->
  gfeat_dist_of false b 0 g = (Ok (0 :: ds), g).
Proof.
  intros Hb Hds. unfold gfeat_dist_of. rewrite Hb.
  change (index (map axis (0 :: ds)) 0) with (Ok (axis 0)). cbv iota beta.
  rewrite gaze_distances_axis; [reflexivity|].
  constructor; [lra | exact Hds].
Qed.

(** The masks of an anchor, entry by entry. *)
Lemma gaze_masks_spec (gfeat_dist : list R) (a_targets : list Z)
    (a_ix : nat) (a_target : Z) :
  length gfeat_dist = length a_targets ->
  a_targets !! a_ix = Some a_target ->
  exists alpha m,
    median gfeat_dist = Ok alpha /\
    sort_asc gfeat_dist !! ((length gfeat_dist - 1) `div` 2)%nat
    = Some alpha /\
    gaze_masks gfeat_dist a_targets a_ix = Ok m /\
    length (n_mask m) = length gfeat_dist /\
    length (p_mask m) = length gfeat_dist /\
    forall j dj tj,
      gfeat_dist !! j = Some dj -> a_targets !! j = Some tj ->
      n_mask m !! j = Some (Rltb alpha dj && bool_decide (tj = a_target)) /\
      p_mask m !! j
      = Some (if decide (j = a_ix) then false
              else Rleb dj alpha && bool_decide (tj = a_target)).
Proof.
  intros Hlen Ha.
  assert (Hix : (a_ix < length gfeat_dist)%nat).
  { rewrite Hlen. eapply lookup_lt_Some, Ha. }
  destruct (median_ok gfeat_dist) as (alpha & Hmed & Hsorted).
  { destruct gfeat_dist; [simpl in Hix; lia | discriminate]. }
  set (same_class := map (fun t => bool_decide (t = a_target)) a_targets).
  set (nm := zip_with andb (map (fun d => Rltb alpha d) gfeat_dist) same_class).
  set (pm := zip_with andb (map (fun d => Rleb d alpha) gfeat_dist) same_class).
  assert (Hnl : length nm = length gfeat_dist).
  { unfold nm, same_class. rewrite length_zip_with_l_eq;
      rewrite !length_map; [reflexivity | exact Hlen]. }
  assert (Hpl : length pm = length gfeat_dist).
  { unfold pm, same_class. rewrite length_zip_with_l_eq;
      rewrite !length_map; [reflexivity | exact Hlen]. }
  exists alpha, {| n_mask := nm; p_mask := <[a_ix := false]> pm |}.
  split; [exact Hmed|]. split; [exact Hsorted|]. split.
  { unfold gaze_masks. rewrite Hmed. simpl.
    unfold index. rewrite Ha. simpl. fold same_class.
    rewrite !broadcast_same_length
      by (unfold same_class; rewrite !length_map; exact Hlen).
    simpl. fold nm pm.
    destruct (decide (a_ix < length pm)%nat) as [_|Hn]; [reflexivity|lia]. }
  simpl. split; [exact Hnl|]. split; [rewrite length_insert; exact Hpl|].
  intros j dj tj Hdj Htj.
  assert (Hsame : same_class !! j = Some (bool_decide (tj = a_target))).
  { unfold same_class. change (map ?f ?l) with (f <$> l).
    rewrite list_lookup_fmap, Htj. reflexivity. }
  assert (Hn : nm !! j = Some (Rltb alpha dj && bool_decide (tj = a_target))).
  { unfold nm. rewrite lookup_zip_with.
    change (map ?f gfeat_dist) with (f <$> gfeat_dist).
    rewrite list_lookup_fmap, Hdj. simpl. rewrite Hsame. reflexivity. }
  assert (Hp : pm !! j = Some (Rleb dj alpha && bool_decide (tj = a_target))).
  { unfold pm. rewrite lookup_zip_with.
    change (map ?f gfeat_dist) with (f <$> gfeat_dist).
    rewrite list_lookup_fmap, Hdj. simpl. rewrite Hsame. reflexivity. }
  split; [exact Hn|].
  destruct (decide (j = a_ix)) as [->|Hne].
  - apply list_lookup_insert_eq. lia.
  - rewrite list_lookup_insert_ne by congruence. exact Hp.
Qed.

End GazeFacts.




(** ** The training step *)

Section StepFacts.
Context `{Torch}.
Import VisionKs.
Local Open Scope R_scope.

(** The loss as [training_step] calls it: the encoder arrives where the
    batch is expected. *)
Lemma swapped_call_raises self a ps ns enc :
  Cnc.forward self (Cnc.ArgTuple a ps ns) (Cnc.ArgModule enc)
  = Raise (if (Cnc.children enc =? 3)%nat then AttributeError
           else ValueError).
Proof. unfold Cnc.forward. destruct (Cnc.children enc =? 3)%nat; reflexivity. Qed.

(** An iteration that returns has skipped its anchor. *)
Lemma anchor_step_ok_skips `{Rng G} self b pair (st st' : loop_state G) a_ix :
  anchor_step self b pair st a_ix = Ok st' ->
  st_contrastive_loss st' = st_contrastive_loss st /\
  st_pos_sim st' = st_pos_sim st /\
  st_neg_sim st' = st_neg_sim st /\
  st_heap st' = st_heap st /\
  st_companions st' = st_companions st.
Proof.
  unfold anchor_step.
  destruct (match cfg_method self with
            | cnc => _ | cnc_gaze => _ | randcon => _ end) as [sel g].
  destruct sel as [[cs|]|e]; simpl.
  - destruct (index (b_input b) a_ix) as [a_input|e]; simpl; [|discriminate].
    destruct (Cnc.children (encoder self) =? 3)%nat; discriminate.
  - intros [= <-]. simpl. auto.
  - discriminate.
Qed.

Lemma anchor_loop_ok_skips `{Rng G} self b pair ixs :
  forall (st st' : loop_state G),
    anchor_loop self b pair ixs st = Ok st' ->
    st_contrastive_loss st' = st_contrastive_loss st /\
    st_pos_sim st' = st_pos_sim st /\
    st_neg_sim st' = st_neg_sim st.
Proof.
  induction ixs as [|a_ix ixs IH]; intros st st'; simpl.
  - intros [= <-]. auto.
  - destruct (anchor_step self b pair st a_ix) as [st1|e] eqn:E; simpl;
      [|discriminate].
    intros Hloop. apply IH in Hloop as (H1 & H2 & H3).
    apply anchor_step_ok_skips in E as (E1 & E2 & E3 & _).
    repeat split; congruence.
Qed.

Lemma gaze_masks_same_label :
  gaze_masks [0; 1; 1; 2; 2] (b_target same_label_batch) 0
  = Ok {| n_mask := [false; false; false; true; true];
          p_mask := [false; true; true; false; false] |}.
Proof.
  unfold gaze_masks, median. rewrite sort_asc_fixed
    by (repeat constructor; lra).
  simpl.
  rewrite (Rltb_false 1 0), (Rltb_false 1 1), (Rltb_true 1 2) by lra.
  rewrite (Rleb_true 1 1), (Rleb_false 2 1) by lra.
  reflexivity.
Qed.

Lemma gaze_masks_small :
  gaze_masks [0; 1; 2] (b_target small_batch) 0
  = Ok {| n_mask := [false; false; true];
          p_mask := [false; true; false] |}.
Proof.
  unfold gaze_masks, median. rewrite sort_asc_fixed
    by (repeat constructor; lra).
  simpl.
  rewrite (Rltb_false 1 0), (Rltb_false 1 1), (Rltb_true 1 2) by lra.
  rewrite (Rleb_true 1 1), (Rleb_false 2 1) by lra.
  reflexivity.
Qed.

Lemma anchor_step_same_label_batch (st : loop_state nat) :
  anchor_step gaze_classifier same_label_batch None st 0 = Raise ValueError.
Proof.
  unfold anchor_step, gaze_companions.
  change (cfg_method gaze_classifier) with cnc_gaze. cbv iota.
  rewrite (gfeat_dist_of_axis same_label_batch [1; 1; 2; 2])
    by (reflexivity || (repeat constructor; lra)).
  rewrite gaze_masks_same_label. reflexivity.
Qed.

Lemma anchor_step_small_batch (st : loop_state nat) :
  exists st', anchor_step gaze_classifier small_batch None st 0 = Ok st'.
Proof.
  unfold anchor_step, gaze_companions.
  change (cfg_method gaze_classifier) with cnc_gaze. cbv iota.
  rewrite (gfeat_dist_of_axis small_batch [1; 2])
    by (reflexivity || (repeat constructor; lra)).
  rewrite gaze_masks_small. eexists. reflexivity.
Qed.
End StepFacts.

(** C5: the trainer step is meant to obtain, for every anchor that is not
    skipped, the anchor's loss with its mean positive and mean negative
    similarity from the call of the loss, and to accumulate the three.
    The code never does: the call hands the loss its arguments in the
    wrong order and raises; the loss returns a single 0-d tensor, which
    cannot be unpacked into three values; so an iteration that returns
    has skipped its anchor, a step that returns logs three zeros, and the
    step raises on a mini-batch with an anchor that has two positives and
    two negatives. *)
Theorem training_step_never_accumulates `{Torch} :
  (forall self a ps ns enc,
      raises (Cnc.forward self (Cnc.ArgTuple a ps ns) (Cnc.ArgModule enc)))
  /\
  (forall self a ps ns enc loss,
      Cnc.forward self (Cnc.ArgModule enc) (Cnc.ArgTuple a ps ns) = Ok loss ->
      VisionKs.unpack3 loss = Raise TypeError)
  /\
  (forall G (HG : Rng G) self b pair (st st' : VisionKs.loop_state G) a_ix,
      VisionKs.anchor_step self b pair st a_ix = Ok st' ->
      VisionKs.st_contrastive_loss st' = VisionKs.st_contrastive_loss st /\
      VisionKs.st_pos_sim st' = VisionKs.st_pos_sim st /\
      VisionKs.st_neg_sim st' = VisionKs.st_neg_sim st)
  /\
  (forall G (HG : Rng G) self b h (g : G) out,
      VisionKs.training_step self b h g = Ok out ->
      VisionKs.log_contrastive_loss out = 0%R /\
      VisionKs.log_positive_sim out = 0%R /\
      VisionKs.log_negative_sim out = 0%R)
  /\
  VisionKs.training_step gaze_classifier same_label_batch ∅ 0
  = Raise ValueError.
Proof.
  split.
  { intros self a ps ns enc. rewrite swapped_call_raises. eexists. reflexivity. }
  split; [reflexivity|]. split.
  { intros G HG self b pair st st' a_ix Hstep.
    apply anchor_step_ok_skips in Hstep as (H1 & H2 & H3 & _). auto. }
  split.
  { intros G HG self b h g out. unfold VisionKs.training_step.
    destruct (match VisionKs.cfg_method self with
              | VisionKs.cnc => _ | _ => _ end) as [pair|e]; simpl;
      [|discriminate].
    destruct (VisionKs.anchor_loop self b pair _ _) as [st|e] eqn:Hloop; simpl;
      [|discriminate].
    apply anchor_loop_ok_skips in Hloop as (H1 & H2 & H3). simpl in *.
    destruct (decide _); [discriminate|].
    destruct (match VisionKs.cfg_method self with
              | VisionKs.cnc => _ | _ => _ end) as [[inputs targets]|e]; simpl;
      [|discriminate].
    intros [= <-]. simpl. rewrite H1, H2, H3.
    unfold Rdiv. rewrite Rmult_0_l. auto. }
  unfold VisionKs.training_step.
  change (VisionKs.cfg_method gaze_classifier) with VisionKs.cnc_gaze.
  cbv iota. simpl mbind.
  rewrite anchor_step_same_label_batch. reflexivity.
Qed.

Lemma training_step_never_accumulates_witness :
  exists st',
    VisionKs.anchor_step (H:=real_torch) gaze_classifier small_batch None
      (initial_state 0) 0
    = Ok st' /\
    VisionKs.st_contrastive_loss st' = 0%R.
Proof.
  destruct (anchor_step_small_batch (H:=real_torch) (initial_state 0))
    as [st' Hstep].
  destruct (training_step_never_accumulates (H:=real_torch))
    as (_ & _ & Hskip & _).
  destruct (Hskip nat counter_rng gaze_classifier small_batch None
              (initial_state 0) st' 0 Hstep) as (Hloss & _).
  exists st'. split; [exact Hstep | exact Hloss].
Defined.

(** * Further properties of the code *)

(** ** Anchors and their companions in the contrastive datapanel *)

Section PairFacts.
Context `{Rng G}.
Import Cnc.

Lemma gather_elem_of {A} (a : list A) (idx : list nat) (xs : list A) :
  gather a idx = Ok xs -> Forall (fun x => x ∈ a) xs.
Proof.
  revert xs. induction idx as [|i idx IH]; intros xs; simpl.
  - intros [= <-]. constructor.
  - destruct (a !! i) as [x|] eqn:Hx; [|discriminate].
    destruct (gather a idx) as [ys|e]; simpl; [|discriminate].
    intros [= <-]. constructor; [|apply IH; reflexivity].
    eapply list_elem_of_lookup_2, Hx.
Qed.

Lemma random_choice_elem_of {A} (a : list A) size (g g' : G) xs :
  random_choice a size g = (Ok xs, g') -> Forall (fun x => x ∈ a) xs.
Proof.
  unfold random_choice. destruct (decide _); [discriminate|].
  destruct (randint g (length a) size) as [idx g1].
  intros [= Hg _]. eapply gather_elem_of, Hg.
Qed.

Lemma draw_elem_of (pos neg : datapanel) num_p num_n (g g' : G) ps ns :
  match random_choice pos num_p g with
  | (Raise e, g1) => (Raise e, g1)
  | (Ok positive_entry, g1) =>
      match random_choice neg num_n g1 with
      | (Raise e, g2) => (Raise e, g2)
      | (Ok negative_entry, g2) => (Ok (positive_entry, negative_entry), g2)
      end
  end = (Ok (ps, ns), g') ->
  Forall (fun x => x ∈ pos) ps /\ Forall (fun x => x ∈ neg) ns.
Proof.
  destruct (random_choice pos num_p g) as [[ps'|e] g1] eqn:E1; [|discriminate].
  destruct (random_choice neg num_n g1) as [[ns'|e] g2] eqn:E2; [|discriminate].
  intros [= <- <- _]. split.
  - eapply random_choice_elem_of, E1.
  - eapply random_choice_elem_of, E2.
Qed.

(** The groups of the companions that a returned pair holds. *)
Lemma pair_groups (dp : datapanel) num_a num_p num_n i r (g g' : G) ps ns :
  cdp_rows (load_contrastive_dp (G:=G) dp num_a num_p num_n) !! i = Some r ->
  contrastive_pair_at (load_contrastive_dp dp num_a num_p num_n) i g
  = (Ok (ps, ns), g') ->
  exists kp kn,
    ((group_id r = 0 /\ kp = 2 /\ kn = 1) \/
     (group_id r = 3 /\ kp = 1 /\ kn = 2))%Z /\
    Forall (fun x => group_id x = kp) ps /\
    Forall (fun x => group_id x = kn) ns.
Proof.
  intros Hr. unfold contrastive_pair_at. rewrite Hr. simpl.
  unfold contrastive_loader. rewrite row_dict_group_id.
  destruct (decide (group_id r = 0%Z)) as [H0|H0];
    [|destruct (decide (group_id r = 3%Z)) as [H3|H3]; [|discriminate]];
    intros Hdraw; apply draw_elem_of in Hdraw as [Hp Hn].
  - exists 2%Z, 1%Z. split; [left; auto|].
    apply Forall_stratum in Hp, Hn.
    split; (eapply Forall_impl; [eassumption|]); intros x [_ Hx]; exact Hx.
  - exists 1%Z, 2%Z. split; [right; auto|].
    apply Forall_stratum in Hp, Hn.
    split; (eapply Forall_impl; [eassumption|]); intros x [_ Hx]; exact Hx.
Qed.
End PairFacts.

(** X2: in a contrastive pair read from the collection that
    [load_contrastive_dp] returns, the anchor row is neither among its
    positives nor among its negatives, and no row is both a positive and
    a negative. *)
Theorem contrastive_pair_disjoint `{Rng G} (dp : Cnc.datapanel)
    (num_a num_p num_n i : nat) (r : Cnc.row) (g g' : G)
    (ps ns : list Cnc.row) :
  Cnc.cdp_rows (Cnc.load_contrastive_dp (G:=G) dp num_a num_p num_n) !! i
  = Some r ->
  Cnc.contrastive_pair_at (Cnc.load_contrastive_dp dp num_a num_p num_n) i g
  = (Ok (ps, ns), g') ->
  (r ∉ ps) /\ (r ∉ ns) /\ (forall x, x ∈ ps -> x ∉ ns).
Proof.
  intros Hr Hpair.
  destruct (pair_groups dp num_a num_p num_n i r g g' ps ns Hr Hpair)
    as (kp & kn & Hk & Hp & Hn).
  rewrite Forall_forall in Hp, Hn.
  repeat split.
  - intros Hin. apply Hp in Hin. lia.
  - intros Hin. apply Hn in Hin. lia.
  - intros x Hxp Hxn. apply Hp in Hxp. apply Hn in Hxn. lia.
Qed.

Lemma contrastive_pair_disjoint_witness :
  {| Cnc.row_id := 0; Cnc.group_id := 0 |}
  ∉ [ {| Cnc.row_id := 2; Cnc.group_id := 2 |};
      {| Cnc.row_id := 2; Cnc.group_id := 2 |} ].
Proof.
  eapply (contrastive_pair_disjoint four_group_dp 1 2 3 0
            {| Cnc.row_id := 0; Cnc.group_id := 0 |} 0 5
            [ {| Cnc.row_id := 2; Cnc.group_id := 2 |};
              {| Cnc.row_id := 2; Cnc.group_id := 2 |} ]
            [ {| Cnc.row_id := 1; Cnc.group_id := 1 |};
              {| Cnc.row_id := 1; Cnc.group_id := 1 |};
              {| Cnc.row_id := 1; Cnc.group_id := 1 |} ]); reflexivity.
Defined.

(** ** Counting in the masks of an anchor *)

Section MaskCounting.
Import VisionKs.

Lemma count_true_cons (b : bool) (l : list bool) :
  count_true (b :: l) = (if b then 1 else 0) + count_true l.
Proof.
  unfold count_true. rewrite filter_cons.
  destruct b; destruct (decide _); simpl; congruence.
Qed.

Lemma count_true_le_length (l : list bool) : count_true l <= length l.
Proof. unfold count_true. apply length_filter. Qed.

Lemma count_true_le_pointwise (l l' : list bool) :
  length l = length l' ->
  (forall j, l !! j = Some true -> l' !! j = Some true) ->
  count_true l <= count_true l'.
Proof.
  revert l'. induction l as [|b l IH]; intros [|b' l'] Hlen Himp;
    try discriminate Hlen.
  - reflexivity.
  - rewrite !count_true_cons.
    assert (Htl : count_true l <= count_true l').
    { apply IH; [simpl in Hlen; lia|]. intros j. apply (Himp (S j)). }
    destruct b; [|destruct b'; lia].
    specialize (Himp 0 eq_refl). injection Himp as ->. lia.
Qed.

Lemma count_true_disjoint (p q : list bool) :
  length p = length q ->
  (forall j, p !! j = Some true -> q !! j = Some true -> False) ->
  count_true p + count_true q <= length p.
Proof.
  revert q. induction p as [|b p IH]; intros [|c q] Hlen Hdis;
    try discriminate Hlen.
  - reflexivity.
  - rewrite !count_true_cons. simpl length.
    assert (Htl : count_true p + count_true q <= length p).
    { apply IH; [simpl in Hlen; lia|]. intros j. apply (Hdis (S j)). }
    destruct b, c; try lia. exfalso. apply (Hdis 0); reflexivity.
Qed.

Lemma count_true_disjoint_hole (p q : list bool) (a : nat) :
  length p = length q ->
  (forall j, p !! j = Some true -> q !! j = Some true -> False) ->
  p !! a = Some false -> q !! a = Some false ->
  count_true p + count_true q < length p.
Proof.
  revert q a. induction p as [|b p IH]; intros [|c q] a Hlen Hdis Hp Hq;
    try discriminate Hlen; try discriminate Hp.
  rewrite !count_true_cons. simpl length. destruct a as [|a].
  - injection Hp as ->. injection Hq as ->.
    pose proof (count_true_disjoint p q) as Htl.
    assert (count_true p + count_true q <= length p).
    { apply Htl; [simpl in Hlen; lia|]. intros j. apply (Hdis (S j)). }
    lia.
  - assert (Htl : count_true p + count_true q < length p).
    { apply (IH q a); [simpl in Hlen; lia | | exact Hp | exact Hq].
      intros j. apply (Hdis (S j)). }
    destruct b, c; try lia. exfalso. apply (Hdis 0); reflexivity.
Qed.

Local Open Scope R_scope.

Lemma sorted_head_le (x : R) (s : list R) (k : nat) (y : R) :
  StronglySorted Rle (x :: s) -> (x :: s) !! k = Some y -> x <= y.
Proof.
  intros Hs Hk. inversion Hs as [|? ? _ Hall]; subst.
  destruct k as [|k]; simpl in Hk.
  - injection Hk as <-. lra.
  - rewrite Forall_forall in Hall. apply Hall.
    eapply list_elem_of_lookup_2, Hk.
Qed.

(** In a sorted list, at most the elements after position [k] exceed the
    element at position [k]. *)
Lemma count_above_sorted (s : list R) : forall (k : nat) (alpha : R),
  StronglySorted Rle s -> s !! k = Some alpha ->
  (count_true (map (Rltb alpha) s) <= length s - S k)%nat.
Proof.
  induction s as [|x s IH]; intros k alpha Hs Hk; [discriminate|].
  pose proof (sorted_head_le x s k alpha Hs Hk) as Hx.
  simpl map. rewrite count_true_cons, (Rltb_false alpha x) by exact Hx.
  inversion Hs as [|? ? Hs' _]; subst.
  destruct k as [|k]; simpl in Hk.
  - pose proof (count_true_le_length (map (Rltb alpha) s)) as Hle.
    rewrite length_map in Hle. simpl length. lia.
  - specialize (IH k alpha Hs' Hk). simpl length. lia.
Qed.

Lemma count_true_map_Permutation (f : R -> bool) (xs ys : list R) :
  Permutation xs ys -> count_true (map f xs) = count_true (map f ys).
Proof.
  intros Hp. unfold count_true.
  apply Permutation_length. apply filter_Permutation.
  apply Permutation_map, Hp.
Qed.

(** At most half of the distances exceed their median. *)
Lemma count_above_median (d : list R) (alpha : R) :
  median d = Ok alpha ->
  (count_true (map (Rltb alpha) d) <= length d `div` 2)%nat.
Proof.
  unfold median.
  destruct (sort_asc d !! ((length d - 1) `div` 2)%nat) as [m|] eqn:Hm;
    [|discriminate].
  intros [= ->].
  rewrite <- (count_true_map_Permutation (Rltb alpha) _ _
                (sort_asc_Permutation d)).
  pose proof (count_above_sorted _ _ _ (sort_asc_sorted d) Hm) as Hc.
  rewrite (Permutation_length (sort_asc_Permutation d)) in Hc.
  assert (Hn : (0 < length d)%nat).
  { apply lookup_lt_Some in Hm.
    rewrite (Permutation_length (sort_asc_Permutation d)) in Hm. lia. }
  etransitivity; [exact Hc|].
  pose proof (Nat.div_mod_eq (length d - 1) 2) as H1.
  pose proof (Nat.div_mod_eq (length d) 2) as H2.
  pose proof (Nat.mod_upper_bound (length d - 1) 2) as H3.
  pose proof (Nat.mod_upper_bound (length d) 2) as H4.
  lia.
Qed.

Lemma norm_nonneg (x : list R) : 0 <= norm x.
Proof. unfold norm. apply sqrt_pos. Qed.

Lemma norm_self_difference (x : list R) : norm (zip_with Rminus x x) = 0.
Proof.
  unfold norm.
  assert (Hd : dot (zip_with Rminus x x) (zip_with Rminus x x) = 0).
  { unfold dot, t_sum. induction x as [|a x IH]; simpl; [reflexivity|].
    rewrite IH. ring. }
  rewrite Hd. apply sqrt_0.
Qed.

Lemma median_elem_of (d : list R) (alpha : R) :
  median d = Ok alpha -> alpha ∈ d.
Proof.
  unfold median.
  destruct (sort_asc d !! ((length d - 1) `div` 2)%nat) as [m|] eqn:Hm;
    [|discriminate].
  intros [= ->]. rewrite <- (sort_asc_Permutation d).
  eapply list_elem_of_lookup_2, Hm.
Qed.
End MaskCounting.

Lemma count_true_repeat_false (n : nat) :
  VisionKs.count_true (repeat false n) = 0.
Proof.
  induction n as [|n IH]; [reflexivity|].
  simpl repeat. rewrite count_true_cons. exact IH.
Qed.

Lemma gaze_masks_membership (gfeat_dist : list R) (a_targets : list Z)
    (a_ix : nat) (a_target : Z) :
  length gfeat_dist = length a_targets ->
  a_targets !! a_ix = Some a_target ->
  exists m,
    VisionKs.gaze_masks gfeat_dist a_targets a_ix = Ok m /\
    VisionKs.p_mask m !! a_ix = Some false /\
    (forall j, ~ (VisionKs.p_mask m !! j = Some true /\
                  VisionKs.n_mask m !! j = Some true)) /\
    (forall gaze_features a_gfeats,
        gaze_features !! a_ix = Some a_gfeats ->
        gfeat_dist = VisionKs.gaze_distances gaze_features a_gfeats ->
        VisionKs.n_mask m !! a_ix = Some false).
Proof.
  intros Hlen Ha.
  destruct (gaze_masks_spec gfeat_dist a_targets a_ix a_target Hlen Ha)
    as (alpha & m & Hmed & _ & Hm & Hnl & Hpl & Hentries).
  assert (Hix : a_ix < length gfeat_dist).
  { rewrite Hlen. eapply lookup_lt_Some, Ha. }
  destruct (lookup_lt_is_Some_2 gfeat_dist a_ix Hix) as [da Hda].
  exists m. split; [exact Hm|]. split; [|split].
  - destruct (Hentries a_ix da a_target Hda Ha) as [_ Hp].
    rewrite Hp. destruct (decide (a_ix = a_ix)); [reflexivity|congruence].
  - intros j [Hp Hn].
    assert (Hj : j < length gfeat_dist).
    { rewrite <- Hpl. eapply lookup_lt_Some, Hp. }
    destruct (lookup_lt_is_Some_2 gfeat_dist j Hj) as [dj Hdj].
    destruct (lookup_lt_is_Some_2 a_targets j) as [tj Htj]; [lia|].
    destruct (Hentries j dj tj Hdj Htj) as [Hn' Hp'].
    rewrite Hn' in Hn. rewrite Hp' in Hp.
    destruct (decide (j = a_ix)); [discriminate|].
    injection Hn as Hn. injection Hp as Hp.
    apply andb_true_iff in Hn as [Hn _]. apply andb_true_iff in Hp as [Hp _].
    apply Rltb_spec in Hn. apply Rleb_spec in Hp. lra.
  - intros gaze_features a_gfeats Hfeat ->.
    destruct (Hentries a_ix da a_target Hda Ha) as [Hn _]. rewrite Hn.
    assert (Hzero : da = 0%R).
    { unfold VisionKs.gaze_distances in Hda.
      change (map ?f ?l) with (f <$> l) in Hda.
      rewrite list_lookup_fmap, Hfeat in Hda. injection Hda as <-.
      apply norm_self_difference. }
    assert (Hnn : (0 <= alpha)%R).
    { apply median_elem_of in Hmed. unfold VisionKs.gaze_distances in Hmed.
      apply list_elem_of_In, in_map_iff in Hmed as (f & <- & _).
      apply norm_nonneg. }
    subst da. rewrite Rltb_false by exact Hnn. reflexivity.
Qed.

(** X3: the masks of an anchor never overlap, and the anchor is not among
    its own positives; when the distances are gaze distances (policy
    [cnc_gaze]) the anchor, at distance 0 from itself, is not among its
    negatives either. *)
Theorem gaze_masks_disjoint (gfeat_dist : list R) (a_targets : list Z)
    (a_ix : nat) (a_target : Z) :
  length gfeat_dist = length a_targets ->
  a_targets !! a_ix = Some a_target ->
  exists m,
    VisionKs.gaze_masks gfeat_dist a_targets a_ix = Ok m /\
    VisionKs.p_mask m !! a_ix = Some false /\
    (forall j, ~ (VisionKs.p_mask m !! j = Some true /\
                  VisionKs.n_mask m !! j = Some true)) /\
    (forall gaze_features a_gfeats,
        gaze_features !! a_ix = Some a_gfeats ->
        gfeat_dist = VisionKs.gaze_distances gaze_features a_gfeats ->
        VisionKs.n_mask m !! a_ix = Some false).
Proof. apply gaze_masks_membership. Qed.

Lemma gaze_masks_disjoint_witness :
  exists m,
    VisionKs.gaze_masks [0; 1; 2]%R [1; 1; 1]%Z 0 = Ok m /\
    VisionKs.p_mask m !! 0 = Some false.
Proof.
  destruct (gaze_masks_disjoint [0; 1; 2]%R [1; 1; 1]%Z 0 1%Z)
    as (m & Hm & Hp & _); [reflexivity | reflexivity |].
  exists m. split; assumption.
Defined.

(** X4: the negatives of an anchor are at most half of the mini-batch
    (the threshold being the lower median of all its distances), the
    positives at most all examples but the anchor, and both together at
    most the mini-batch. *)
Theorem gaze_masks_counts (gfeat_dist : list R) (a_targets : list Z)
    (a_ix : nat) (a_target : Z) :
  length gfeat_dist = length a_targets ->
  a_targets !! a_ix = Some a_target ->
  exists m,
    VisionKs.gaze_masks gfeat_dist a_targets a_ix = Ok m /\
    VisionKs.count_true (VisionKs.n_mask m) <= length gfeat_dist `div` 2 /\
    VisionKs.count_true (VisionKs.p_mask m) <= length gfeat_dist - 1 /\
    VisionKs.count_true (VisionKs.p_mask m)
    + VisionKs.count_true (VisionKs.n_mask m) <= length gfeat_dist.
Proof.
  intros Hlen Ha.
  destruct (gaze_masks_spec gfeat_dist a_targets a_ix a_target Hlen Ha)
    as (alpha & m & Hmed & _ & Hm & Hnl & Hpl & Hentries).
  destruct (gaze_masks_membership gfeat_dist a_targets a_ix a_target Hlen Ha)
    as (m' & Hm' & Hpa & Hdis & _).
  rewrite Hm in Hm'. injection Hm' as <-.
  exists m. split; [exact Hm|]. split; [|split].
  - etransitivity; [|apply (count_above_median gfeat_dist alpha Hmed)].
    apply count_true_le_pointwise; [rewrite length_map; exact Hnl|].
    intros j Hn.
    assert (Hj : j < length gfeat_dist).
    { rewrite <- Hnl. eapply lookup_lt_Some, Hn. }
    destruct (lookup_lt_is_Some_2 gfeat_dist j Hj) as [dj Hdj].
    destruct (lookup_lt_is_Some_2 a_targets j) as [tj Htj]; [lia|].
    destruct (Hentries j dj tj Hdj Htj) as [Hn' _].
    rewrite Hn' in Hn. injection Hn as Hn.
    apply andb_true_iff in Hn as [Hn _].
    change (map ?f ?l) with (f <$> l).
    rewrite list_lookup_fmap, Hdj. simpl. rewrite Hn. reflexivity.
  - pose proof (count_true_disjoint_hole (VisionKs.p_mask m)
                  (repeat false (length (VisionKs.p_mask m))) a_ix) as Hh.
    rewrite count_true_repeat_false, Hpl in Hh.
    assert (a_ix < length gfeat_dist).
    { rewrite Hlen. eapply lookup_lt_Some, Ha. }
    enough (VisionKs.count_true (VisionKs.p_mask m) + 0 < length gfeat_dist)
      by lia.
    apply Hh.
    + rewrite repeat_length. reflexivity.
    + intros j _ Hq.
      assert (Hj : j < length gfeat_dist).
      { apply lookup_lt_Some in Hq. rewrite repeat_length in Hq. lia. }
      rewrite lookup_repeat in Hq by exact Hj. discriminate.
    + exact Hpa.
    + apply lookup_repeat. lia.
  - rewrite <- Hpl. apply count_true_disjoint; [congruence|].
    intros j Hp Hn. apply (Hdis j). split; assumption.
Qed.

Lemma gaze_masks_counts_witness :
  exists m,
    VisionKs.gaze_masks [0; 1; 2]%R [1; 1; 1]%Z 0 = Ok m /\
    VisionKs.count_true (VisionKs.n_mask m) <= 1.
Proof.
  destruct (gaze_masks_counts [0; 1; 2]%R [1; 1; 1]%Z 0 1%Z)
    as (m & Hm & Hn & _); [reflexivity | reflexivity |].
  exists m. split; [exact Hm | exact Hn].
Defined.

(** ** When the training step returns *)

Section StepReturns.
Context `{Torch} `{Rng G}.
Import VisionKs.

Lemma gfeat_dist_of_ok (is_randcon : bool) (b : batch) (a_ix : nat) (g : G) :
  length (b_gaze_features b) = length (b_target b) ->
  a_ix < length (b_target b) ->
  exists gfeat_dist g' a_gfeats,
    gfeat_dist_of is_randcon b a_ix g = (Ok gfeat_dist, g') /\
    length gfeat_dist = length (b_target b) /\
    b_gaze_features b !! a_ix = Some a_gfeats /\
    (is_randcon = false ->
     gfeat_dist = gaze_distances (b_gaze_features b) a_gfeats).
Proof.
  intros Hgl Hix.
  destruct (lookup_lt_is_Some_2 (b_gaze_features b) a_ix) as [a_gfeats Hfeat];
    [lia|].
  unfold gfeat_dist_of, index. rewrite Hfeat.
  unfold gaze_distances. rewrite length_map.
  destruct is_randcon.
  - pose proof (rand_length g (length (b_gaze_features b))) as Hrl.
    destruct (rand g (length (b_gaze_features b))) as [r g'].
    exists r, g', a_gfeats. simpl in Hrl.
    split; [reflexivity|]. split; [congruence|]. split; [reflexivity|].
    discriminate.
  - eexists _, g, a_gfeats. split; [reflexivity|].
    split; [rewrite length_map; exact Hgl|]. split; [reflexivity|]. auto.
Qed.

(** In a mini-batch of fewer than four examples, or fewer than five under
    [cnc_gaze], no anchor has two positives and two negatives. *)
Lemma gaze_companions_small (is_randcon : bool) (b : batch) (a_ix : nat)
    (g : G) :
  length (b_gaze_features b) = length (b_target b) ->
  a_ix < length (b_target b) ->
  length (b_target b) < 4 \/ (is_randcon = false /\ length (b_target b) < 5) ->
  exists g', gaze_companions is_randcon b a_ix g = (Ok None, g').
Proof.
  intros Hgl Hix Hsmall.
  destruct (gfeat_dist_of_ok is_randcon b a_ix g Hgl Hix)
    as (d & g' & a_gfeats & Hd & Hdl & Hfeat & Hgaze).
  destruct (lookup_lt_is_Some_2 (b_target b) a_ix Hix) as [a_target Ha].
  destruct (gaze_masks_membership d (b_target b) a_ix a_target Hdl Ha)
    as (m & Hm & Hpa & Hdis & Hna).
  destruct (gaze_masks_spec d (b_target b) a_ix a_target Hdl Ha)
    as (alpha & m' & _ & _ & Hm' & Hnl & Hpl & _).
  rewrite Hm in Hm'. injection Hm' as <-.
  exists g'. unfold gaze_companions. rewrite Hd, Hm. simpl.
  destruct (decide _) as [_|Hkeep]; [reflexivity|]. exfalso. apply Hkeep.
  assert (Hsum : count_true (p_mask m) + count_true (n_mask m) <= length d).
  { rewrite <- Hpl. apply count_true_disjoint; [congruence|].
    intros j Hp Hn. apply (Hdis j). split; assumption. }
  destruct Hsmall as [Hlt|[-> Hlt]]; [lia|].
  assert (count_true (p_mask m) + count_true (n_mask m) < length d).
  { rewrite <- Hpl.
    apply (count_true_disjoint_hole _ _ a_ix); [congruence | | exact Hpa |].
    - intros j Hp Hn. apply (Hdis j). split; assumption.
    - eapply Hna; [exact Hfeat | auto]. }
  lia.
Qed.

Lemma anchor_step_skip (self : Classifier) (is_randcon : bool) (b : batch)
    pair (st : loop_state G) (a_ix : nat) (g' : G) :
  cfg_method self = (if is_randcon then randcon else cnc_gaze) ->
  gaze_companions is_randcon b a_ix (st_rng st) = (Ok None, g') ->
  anchor_step self b pair st a_ix
  = Ok {| st_heap := st_heap st; st_rng := g';
          st_contrastive_loss := st_contrastive_loss st;
          st_pos_sim := st_pos_sim st; st_neg_sim := st_neg_sim st;
          st_companions := st_companions st |}.
Proof.
  intros Hmethod Hnone. unfold anchor_step. rewrite Hmethod.
  destruct is_randcon; rewrite Hnone; reflexivity.
Qed.

Lemma anchor_loop_small (self : Classifier) (is_randcon : bool) (b : batch)
    pair (ixs : list nat) :
  cfg_method self = (if is_randcon then randcon else cnc_gaze) ->
  length (b_gaze_features b) = length (b_target b) ->
  length (b_target b) < 4 \/ (is_randcon = false /\ length (b_target b) < 5) ->
  Forall (fun a_ix => a_ix < length (b_target b)) ixs ->
  forall st : loop_state G,
    exists st', anchor_loop self b pair ixs st = Ok st'.
Proof.
  intros Hmethod Hgl Hsmall. induction 1 as [|a_ix ixs Hix _ IH]; intros st.
  - exists st. reflexivity.
  - destruct (gaze_companions_small is_randcon b a_ix (st_rng st) Hgl Hix Hsmall)
      as [g' Hnone].
    simpl. rewrite (anchor_step_skip self is_randcon b pair st a_ix g' Hmethod Hnone).
    simpl. apply IH.
Qed.

(** Under [cnc] no iteration of the loop returns. *)
Lemma anchor_step_cnc_raises (self : Classifier) (b : batch) pair
    (st st' : loop_state G) (a_ix : nat) :
  cfg_method self = cnc -> anchor_step self b pair st a_ix <> Ok st'.
Proof.
  intros Hmethod. unfold anchor_step. rewrite Hmethod.
  destruct pair as [pr|]; [|discriminate].
  unfold cnc_companions.
  destruct (index (e_inputs pr.1) a_ix); simpl; [|discriminate].
  destruct (index (e_inputs pr.2) a_ix); simpl; [|discriminate].
  destruct (index (e_targets pr.1) a_ix); simpl; [|discriminate].
  destruct (index (e_targets pr.2) a_ix); simpl; [|discriminate].
  destruct (index (b_input b) a_ix); simpl; [|discriminate].
  destruct (Cnc.children (encoder self) =? 3)%nat; discriminate.
Qed.

(** What a step that returns has computed. *)
Lemma training_step_ok (self : Classifier) (b : batch)
    (h : gmap nat tensor_obj) (g : G) (out : step_output) :
  training_step self b h g = Ok out ->
  cfg_method self <> cnc /\ b_input b <> [] /\
  out_loss out
  = ((1 - contrastive_weight self)
     * t_mean (train_loss_computer self (model self (b_input b)) (b_target b)))%R.
Proof.
  unfold training_step.
  destruct (cfg_method self) eqn:Hmethod.
  - (* cnc *)
    destruct (b_contrastive_input_pair b) as [pr|]; simpl; [|discriminate].
    destruct (b_input b) as [|x xs] eqn:Hb; simpl; [discriminate|].
    destruct (anchor_step self _ (Some pr) _ 0) as [st1|e] eqn:E; simpl;
      [|discriminate].
    exfalso. eapply anchor_step_cnc_raises; eassumption.
  - simpl.
    destruct (anchor_loop self b None _ _) as [st|e] eqn:Hloop; simpl;
      [|discriminate].
    apply anchor_loop_ok_skips in Hloop as (H1 & _ & _). simpl in H1.
    destruct (decide _) as [|Hn]; [discriminate|]. simpl.
    intros [= <-]. simpl. split; [discriminate|].
    split; [destruct (b_input b); [contradiction | discriminate]|].
    rewrite H1. unfold Rdiv. ring.
  - simpl.
    destruct (anchor_loop self b None _ _) as [st|e] eqn:Hloop; simpl;
      [|discriminate].
    apply anchor_loop_ok_skips in Hloop as (H1 & _ & _). simpl in H1.
    destruct (decide _) as [|Hn]; [discriminate|]. simpl.
    intros [= <-]. simpl. split; [discriminate|].
    split; [destruct (b_input b); [contradiction | discriminate]|].
    rewrite H1. unfold Rdiv. ring.
Qed.

Lemma training_step_small (self : Classifier) (is_randcon : bool) (b : batch)
    (h : gmap nat tensor_obj) (g : G) :
  cfg_method self = (if is_randcon then randcon else cnc_gaze) ->
  length (b_gaze_features b) = length (b_target b) ->
  length (b_input b) = length (b_target b) ->
  0 < length (b_input b) ->
  length (b_input b) < 4 \/ (is_randcon = false /\ length (b_input b) < 5) ->
  exists out, training_step self b h g = Ok out.
Proof.
  intros Hmethod Hgl Hil Hpos Hsmall.
  unfold training_step. rewrite Hmethod.
  assert (Hloop : exists st,
    anchor_loop self b None (seq 0 (length (b_input b)))
      {| st_heap := h; st_rng := g; st_contrastive_loss := 0;
         st_pos_sim := 0; st_neg_sim := 0; st_companions := None |} = Ok st).
  { apply (anchor_loop_small self is_randcon); try assumption.
    - rewrite <- Hil. exact Hsmall.
    - apply Forall_forall. intros i Hi.
      apply list_elem_of_In, in_seq in Hi. lia. }
  destruct Hloop as [st Hloop].
  destruct is_randcon; simpl; rewrite Hloop; simpl;
    (destruct (decide _); [lia|]); simpl; eexists; reflexivity.
Qed.
End StepReturns.

(** X5: a training step that returns has used neither the [cnc] policy
    nor an empty mini-batch, and its loss is [(1 - w)] times the
    classification loss of the plain mini-batch: no contrastive term ever
    enters the returned loss.  Under [cnc], and on an empty mini-batch,
    the step always raises. *)
Theorem training_step_returns_classification_loss `{Torch} `{Rng G}
    (self : VisionKs.Classifier) (b : VisionKs.batch)
    (h : gmap nat VisionKs.tensor_obj) (g : G) (out : VisionKs.step_output) :
  VisionKs.training_step self b h g = Ok out ->
  VisionKs.cfg_method self <> VisionKs.cnc /\
  VisionKs.b_input b <> [] /\
  VisionKs.out_loss out
  = ((1 - VisionKs.contrastive_weight self)
     * t_mean (VisionKs.train_loss_computer self
                 (VisionKs.model self (VisionKs.b_input b))
                 (VisionKs.b_target b)))%R.
Proof. apply training_step_ok. Qed.

Lemma training_step_returns_classification_loss_witness :
  exists out,
    VisionKs.training_step (H:=real_torch) gaze_classifier small_batch ∅ 0
    = Ok out /\
    VisionKs.out_loss out
    = ((1 - 1 / 2)
       * t_mean (VisionKs.train_loss_computer gaze_classifier
                   (VisionKs.model gaze_classifier
                      (VisionKs.b_input small_batch))
                   (VisionKs.b_target small_batch)))%R.
Proof.
  destruct (training_step_small (H:=real_torch)
              gaze_classifier false small_batch ∅ 0)
    as [out Hout];
    [reflexivity | reflexivity | reflexivity | simpl; lia
     | right; split; [reflexivity | simpl; lia] |].
  exists out. split; [exact Hout|].
  apply (training_step_returns_classification_loss (H:=real_torch)
           gaze_classifier small_batch ∅ 0 out Hout).
Defined.

(** X6: under the feature-proximity policy a mini-batch of fewer than
    five examples, and under random control one of fewer than four,
    skips every anchor: the step returns normally. *)
Theorem small_batch_step_returns `{Torch} `{Rng G}
    (self : VisionKs.Classifier)
    (is_randcon : bool) (b : VisionKs.batch)
    (h : gmap nat VisionKs.tensor_obj) (g : G) :
  VisionKs.cfg_method self
  = (if is_randcon then VisionKs.randcon else VisionKs.cnc_gaze) ->
  length (VisionKs.b_gaze_features b) = length (VisionKs.b_target b) ->
  length (VisionKs.b_input b) = length (VisionKs.b_target b) ->
  0 < length (VisionKs.b_input b) ->
  length (VisionKs.b_input b) < 4
  \/ (is_randcon = false /\ length (VisionKs.b_input b) < 5) ->
  exists out, VisionKs.training_step self b h g = Ok out.
Proof. apply training_step_small. Qed.

Lemma small_batch_step_returns_witness :
  exists out,
    VisionKs.training_step (H:=real_torch) gaze_classifier small_batch ∅ 0
    = Ok out.
Proof.
  apply (small_batch_step_returns (H:=real_torch)
           gaze_classifier false small_batch ∅ 0);
    [reflexivity | reflexivity | reflexivity | simpl; lia
     | right; split; [reflexivity | simpl; lia]].
Defined.

(** ** More on the sampler weights *)

Section WeightOrder.
Import VisionKs.
Local Open Scope R_scope.


End WeightOrder.



(** ** Group counts *)

Section GroupCounts.
Import VisionKs.

Lemma filter_range_succ (group_id : list Z) (n : nat) :
  length (filter (fun g => (0 <= g < Z.of_nat (S n))%Z) group_id)
  = length (filter (fun g => (0 <= g < Z.of_nat n)%Z) group_id)
    + length (filter (fun g => g = Z.of_nat n) group_id).
Proof.
  induction group_id as [|g l IH]; [reflexivity|].
  rewrite !filter_cons.
  destruct (decide (0 <= g < Z.of_nat (S n))%Z),
           (decide (0 <= g < Z.of_nat n)%Z),
           (decide (g = Z.of_nat n)); simpl; lia.
Qed.

Lemma group_counts_sum (group_id : list Z) (n_groups : nat) :
  sum_list (Train.group_counts group_id n_groups)
  = length (filter (fun g => (0 <= g < Z.of_nat n_groups)%Z) group_id).
Proof.
  unfold Train.group_counts. induction n_groups as [|n IH].
  - simpl. induction group_id as [|g l IHl]; [reflexivity|].
    rewrite filter_cons. destruct (decide _); [lia | exact IHl].
  - rewrite seq_S, map_app, sum_list_with_app, IH. simpl.
    rewrite (count_true_map (fun g => g = Z.of_nat n)).
    rewrite filter_range_succ. lia.
Qed.
End GroupCounts.

(** X8: the group counts of a dataset config add up to the number of
    examples whose [group_id] is one of the groups [0 .. n_groups-1]:
    an example with any other [group_id] (such as -1, for a missing
    attribute) is counted in no group, and the counts add up to the size
    of the dataset exactly when there is no such example. *)
Theorem group_counts_total (group_id : list Z) (n_groups : nat) :
  length (Train.group_counts group_id n_groups) = n_groups /\
  sum_list (Train.group_counts group_id n_groups)
  + length (filter (fun g => ~ (0 <= g < Z.of_nat n_groups)%Z) group_id)
  = length group_id /\
  (sum_list (Train.group_counts group_id n_groups) = length group_id
   <-> Forall (fun g => (0 <= g < Z.of_nat n_groups)%Z) group_id).
Proof.
  assert (Hsplit :
    length (filter (fun g => (0 <= g < Z.of_nat n_groups)%Z) group_id)
    + length (filter (fun g => ~ (0 <= g < Z.of_nat n_groups)%Z) group_id)
    = length group_id).
  { rewrite <- length_app.
    apply Permutation_length, filter_app_complement. }
  split; [|split].
  - unfold Train.group_counts. rewrite length_map, length_seq. reflexivity.
  - rewrite group_counts_sum. exact Hsplit.
  - rewrite group_counts_sum. split.
    + intros Heq. apply Forall_forall. intros g Hg.
      destruct (decide (0 <= g < Z.of_nat n_groups)%Z) as [Hr|Hr]; [exact Hr|].
      exfalso.
      assert (Hin : g ∈ filter (fun g => ~ (0 <= g < Z.of_nat n_groups)%Z)
                          group_id)
        by (apply list_elem_of_filter; split; assumption).
      destruct (filter (fun g => ~ (0 <= g < Z.of_nat n_groups)%Z) group_id);
        [inversion Hin | simpl in Hsplit; lia].
    + intros Hall.
      assert (Hnil : filter (fun g => ~ (0 <= g < Z.of_nat n_groups)%Z)
                       group_id = []).
      { clear Hsplit. induction Hall as [|g l Hg _ IH]; [reflexivity|].
        rewrite filter_cons. destruct (decide _); [contradiction | exact IH]. }
      rewrite Hnil in Hsplit. simpl in Hsplit. lia.
Qed.

(** ** Group names *)

Section GroupNames.
Import VisionKs.
Local Open Scope Z_scope.

Lemma bits_value_bound bits :
  Forall (fun b => b = 0 \/ b = 1) bits ->
  0 <= bits_value bits < 2 ^ Z.of_nat (length bits).
Proof.
  induction 1 as [|b bits Hb _ IH]; [simpl; lia|].
  simpl bits_value. simpl length.
  rewrite Nat2Z.inj_succ, Z.pow_succ_r by lia. lia.
Qed.

Lemma decode_packed (t : Z) (bits : list Z) :
  t = 0 \/ t = 1 -> Forall (fun b => b = 0 \/ b = 1) bits ->
  decode_target (t + packed_sum 0 bits) = (t =? 1) /\
  forall ndx b, bits !! ndx = Some b ->
                decode_subgroup (t + packed_sum 0 bits) ndx = (b =? 1).
Proof.
  intros Ht Hbits. rewrite packed_sum_bits_value.
  change (2 ^ (Z.of_nat 0 + 1)) with 2.
  pose proof (bits_value_nonneg bits Hbits) as Hnn. split.
  - unfold decode_target.
    replace ((t + 2 * bits_value bits) mod 2) with t.
    + destruct Ht as [->| ->]; reflexivity.
    + apply Z.mod_unique with (q := bits_value bits); lia.
  - intros ndx b Hb. unfold decode_subgroup.
    rewrite Z.quot_div_nonneg by lia.
    replace (Z.of_nat ndx + 1) with (Z.succ (Z.of_nat ndx)) by lia.
    rewrite Z.pow_succ_r by lia. rewrite <- Z.div_div by lia.
    replace ((t + 2 * bits_value bits) / 2) with (bits_value bits).
    + rewrite (bits_value_decode bits ndx b Hbits Hb).
      assert (Hbb : b = 0 \/ b = 1).
      { eapply Forall_forall in Hbits; [exact Hbits|].
        eapply list_elem_of_lookup_2, Hb. }
      destruct Hbb as [->| ->]; reflexivity.
    + destruct Ht as [->| ->].
      * apply Z.div_unique with (r := 0); lia.
      * apply Z.div_unique with (r := 1); lia.
Qed.

Lemma subgroup_suffix_labels (gid : Z) (names : list string) :
  forall (ndx : nat) (bits : list Z),
    length bits = length names ->
    (forall k b, bits !! k = Some b ->
                 decode_subgroup gid (ndx + k) = (b =? 1)) ->
    subgroup_suffix gid ndx names = label_suffix bits names.
Proof.
  induction names as [|name names IH]; intros ndx [|b bits] Hlen Hdec;
    try discriminate Hlen; [reflexivity|].
  simpl. rewrite <- (Hdec 0%nat b eq_refl), Nat.add_0_r.
  do 4 f_equal. apply IH; [simpl in Hlen; lia|].
  intros k b' Hb'. rewrite <- (Hdec (S k) b' Hb'). f_equal. lia.
Qed.

Lemma subgroup_columns_length (target_column : string) (names : list string) :
  length (subgroup_columns_ target_column names)
  = (2 ^ (length names + 1))%nat.
Proof. unfold subgroup_columns_. rewrite length_map, length_seq. reflexivity. Qed.
End GroupNames.

(** X9: for a target label and subgroup attributes in [{0, 1}], the name
    that [train] gives to the group of the example's [group_id] words
    exactly the example's labels: ["with"] or ["without"] the target,
    then ["with"] or ["without"] each subgroup column in turn. *)
Theorem group_name_words_labels (target_column : string)
    (names : list string) (t : Z) (bits : list Z) :
  (t = 0 \/ t = 1)%Z ->
  Forall (fun b => b = 0 \/ b = 1)%Z bits ->
  length bits = length names ->
  VisionKs.subgroup_columns_ target_column names
    !! Z.to_nat (t + packed_sum 0 bits)
  = Some (VisionKs.binary_strs (t =? 1)%Z +:+ "_" +:+ target_column
          +:+ label_suffix bits names)%string.
Proof.
  intros Ht Hbits Hlen.
  pose proof (bits_value_bound bits Hbits) as Hbound.
  pose proof (packed_sum_bits_value bits 0) as Hsum.
  change (2 ^ (Z.of_nat 0 + 1))%Z with 2%Z in Hsum.
  set (gid := (t + packed_sum 0 bits)%Z) in *.
  assert (Hgid : (0 <= gid < 2 ^ Z.of_nat (length names + 1))%Z).
  { unfold gid. rewrite Hsum, <- Hlen.
    rewrite Nat2Z.inj_add. change (Z.of_nat 1) with 1%Z.
    rewrite Z.pow_add_r by lia. change (2 ^ 1)%Z with 2%Z. lia. }
  unfold VisionKs.subgroup_columns_.
  change (map ?f ?l) with (f <$> l). rewrite list_lookup_fmap.
  rewrite lookup_seq_lt.
  2:{ apply Nat2Z.inj_lt. rewrite Z2Nat.id by lia.
      rewrite Nat2Z.inj_pow. change (Z.of_nat 2) with 2%Z. lia. }
  simpl. f_equal. unfold VisionKs.subgroup_name.
  rewrite Z2Nat.id by lia.
  destruct (decode_packed t bits Ht Hbits) as [Hdt Hds]. fold gid in Hdt, Hds.
  rewrite Hdt. do 3 f_equal.
  apply subgroup_suffix_labels; [exact Hlen|].
  intros k b Hb. simpl. apply Hds, Hb.
Qed.

Lemma group_name_words_labels_witness :
  VisionKs.subgroup_columns_ "pmx" ["tube"] !! 2
  = Some "without_pmx_with_tube"%string.
Proof.
  apply (group_name_words_labels "pmx" ["tube"%string] 0%Z [1%Z]);
    [left; reflexivity
    | constructor; [right; reflexivity | constructor]
    | reflexivity].
Defined.

(** X10: under [multiclass] the group ids become the target labels.
    There are [2^(k+1)] groups for [k] subgroup columns, but the number
    of classes is set to [num_classes * 2 * k]: starting from two classes
    the two numbers agree only for one or two subgroup columns; without
    subgroup columns the number of classes becomes 0, and from three
    subgroup columns on there are fewer classes than group ids. *)
Theorem multiclass_classes_and_groups (target_column : string)
    (names : list string) :
  length (VisionKs.subgroup_columns_ target_column names)
  = 2 ^ (length names + 1)
  /\
  (Train.multiclass_num_classes 2 (length names)
   = length (VisionKs.subgroup_columns_ target_column names)
   <-> length names = 1 \/ length names = 2)
  /\
  (length names = 0 -> Train.multiclass_num_classes 2 (length names) = 0)
  /\
  (3 <= length names ->
   Train.multiclass_num_classes 2 (length names)
   < length (VisionKs.subgroup_columns_ target_column names)).
Proof.
  rewrite subgroup_columns_length. unfold Train.multiclass_num_classes.
  set (k := length names). clearbody k.
  assert (Hbig : forall n, 3 <= n -> 2 * 2 * n < 2 ^ (n + 1)).
  { intros n Hn. induction Hn as [|n Hn IH]; [simpl; lia|].
    replace (S n + 1) with (S (n + 1)) by lia.
    rewrite Nat.pow_succ_r'. lia. }
  split; [reflexivity|]. split; [|split].
  - split.
    + intros Heq.
      destruct k as [|[|[|k]]]; [simpl in Heq; lia | auto | auto |].
      specialize (Hbig (S (S (S k))) ltac:(lia)). lia.
    + intros [-> | ->]; reflexivity.
  - intros ->. reflexivity.
  - apply Hbig.
Qed.

(** ** Class weights *)

Section ClassWeights.
Local Open Scope R_scope.

Lemma py_int_unit_interval (x : R) : 1 <= x < 2 -> Train.py_int x = 1%Z.
Proof.
  intros Hx. unfold Train.py_int. destruct (Rle_dec 0 x); [|lra].
  symmetry. apply Int_part_spec. simpl. lra.
Qed.

Lemma py_int_two : Train.py_int 2 = 2%Z.
Proof.
  unfold Train.py_int. destruct (Rle_dec 0 2); [|lra].
  symmetry. apply Int_part_spec. simpl. lra.
Qed.

Lemma class_weights_ok (train_target : list Z) (num_classes : nat)
    (alpha : R) :
  (0 < length train_target)%nat ->
  Train.class_weights true train_target num_classes alpha
  = Ok (map (fun i =>
               Train.py_int
                 (Rpower (1 + (1 - INR (length (filter (fun t => t = Z.of_nat i)
                                                  train_target))
                                   / INR (length train_target))) alpha))
            (seq 0 num_classes)).
Proof.
  intros Hpos. unfold Train.class_weights.
  destruct (decide _) as [[Hz _]|_]; [lia|].
  rewrite map_map. f_equal. apply map_ext. intros i.
  rewrite (count_true_map (fun t => t = Z.of_nat i)). reflexivity.
Qed.
End ClassWeights.

(** X11: with [reweight_class], a training split that is not empty and
    an exponent between 0 and 1, there is one weight per class, and the
    conversion to [int] truncates the weight of every class that occurs
    among the training targets to exactly 1; with exponent 1 a class
    that does not occur gets weight 2.  On an empty training split, with
    at least one class and an exponent other than 0, the conversion
    meets a NaN and raises [ValueError]. *)
Theorem class_weights_truncated (train_target : list Z) (num_classes : nat)
    (alpha : R) :
  (train_target = [] -> 0 < num_classes -> alpha <> 0%R ->
   Train.class_weights true train_target num_classes alpha
   = Raise ValueError)
  /\
  (0 < length train_target -> (0 <= alpha <= 1)%R ->
   exists ws,
     Train.class_weights true train_target num_classes alpha = Ok ws /\
     length ws = num_classes /\
     forall i, i < num_classes ->
       (Z.of_nat i ∈ train_target -> ws !! i = Some 1%Z) /\
       (Z.of_nat i ∉ train_target -> alpha = 1%R -> ws !! i = Some 2%Z)).
Proof.
  split.
  { intros -> Hn Ha. unfold Train.class_weights.
    destruct (decide _) as [_|Hno]; [|simpl in Hno; lia].
    destruct (Req_dec_T alpha 0); [contradiction | reflexivity]. }
  intros Hpos Halpha.
  rewrite (class_weights_ok train_target num_classes alpha Hpos).
  eexists. split; [reflexivity|].
  split; [rewrite length_map, length_seq; reflexivity|].
  intros i Hi.
  change (map ?f ?l) with (f <$> l).
  rewrite list_lookup_fmap, lookup_seq_lt by exact Hi. simpl.
  split.
  - intros Hin. f_equal.
    apply py_int_unit_interval.
    set (c := length (filter (fun t => t = Z.of_nat i) train_target)).
    assert (Hc1 : 1 <= c).
    { unfold c.
      assert (Hf : Z.of_nat i ∈ filter (fun t => t = Z.of_nat i) train_target)
        by (apply list_elem_of_filter; split; [reflexivity | exact Hin]).
      destruct (filter _ train_target); [inversion Hf | simpl; lia]. }
    assert (Hc2 : c <= length train_target) by apply length_filter.
    apply le_INR in Hc1, Hc2. simpl in Hc1. apply lt_0_INR in Hpos.
    set (N := INR (length train_target)) in *. set (C := INR c) in *.
    assert (Hq : (0 < C / N <= 1)%R).
    { split.
      - apply Rmult_lt_0_compat; [lra | apply Rinv_0_lt_compat, Hpos].
      - apply Rmult_le_reg_r with (r := N); [exact Hpos|].
        unfold Rdiv. rewrite Rmult_assoc, Rinv_l by lra. lra. }
    set (base := (1 + (1 - C / N))%R).
    assert (Hb : (1 <= base < 2)%R) by (unfold base; lra).
    split.
    + rewrite <- (Rpower_O base) by lra. apply Rle_Rpower; lra.
    + apply Rle_lt_trans with (r2 := Rpower base 1).
      * apply Rle_Rpower; lra.
      * rewrite Rpower_1 by lra. lra.
  - intros Hnot ->. f_equal.
    assert (Hnil : filter (fun t => t = Z.of_nat i) train_target = []).
    { destruct (filter (fun t => t = Z.of_nat i) train_target) as [|x l] eqn:E;
        [reflexivity|].
      exfalso. apply Hnot.
      assert (Hx : x ∈ filter (fun t => t = Z.of_nat i) train_target)
        by (rewrite E; left).
      apply list_elem_of_filter in Hx as [-> Hx]. exact Hx. }
    rewrite Hnil. simpl length. simpl INR.
    replace (1 + (1 - 0 / INR (length train_target)))%R with 2%R
      by (unfold Rdiv; ring).
    rewrite Rpower_1 by lra. apply py_int_two.
Qed.

Lemma class_weights_truncated_witness :
  Train.class_weights true [] 2 1 = Raise ValueError
  /\ exists ws,
       Train.class_weights true [0; 0; 0; 1]%Z 2 1 = Ok ws /\
       ws !! 1 = Some 1%Z.
Proof.
  split.
  - destruct (class_weights_truncated [] 2 1) as [Hraise _].
    apply Hraise; [reflexivity | lia | lra].
  - destruct (class_weights_truncated [0; 0; 0; 1]%Z 2 1) as [_ Hok].
    destruct Hok as (ws & Hws & _ & Hall); [simpl; lia | lra |].
    exists ws. split; [exact Hws|].
    destruct (Hall 1) as [Hone _]; [lia|].
    apply Hone. vm_compute. do 3 right. left.
Defined.

(** ** Weighted sampling *)

Section WeightedSampling.
Local Open Scope R_scope.




End WeightedSampling.



(** ** The random split under ["gaze_erm"] *)

Lemma Rltb_negb_Rleb (x c : R) : Rltb x c = negb (Rleb c x).
Proof.
  unfold Rltb, Rleb. destruct (Rlt_dec x c), (Rle_dec c x);
    try reflexivity; lra.
Qed.

(** X13: under method ["gaze_erm"] the random train and validation masks
    split the examples that have a gaze sequence: no example is in both
    masks, and an example is in one of them exactly when it has a gaze
    sequence. *)
Theorem gaze_erm_split_partitions `{Rng G} (gaze_mask : list bool) (g : G) :
  length (Train.gaze_erm_masks gaze_mask g).1.1 = length gaze_mask /\
  length (Train.gaze_erm_masks gaze_mask g).1.2 = length gaze_mask /\
  forall j b,
    gaze_mask !! j = Some b ->
    exists t v,
      (Train.gaze_erm_masks gaze_mask g).1.1 !! j = Some t /\
      (Train.gaze_erm_masks gaze_mask g).1.2 !! j = Some v /\
      t && v = false /\ t || v = b.
Proof.
  unfold Train.gaze_erm_masks.
  pose proof (rand_length g (length gaze_mask)) as Hrl.
  destruct (rand g (length gaze_mask)) as [rand_vec g']. simpl in *.
  split; [|split].
  - rewrite length_zip_with_l_eq; [reflexivity | rewrite length_map; congruence].
  - rewrite length_zip_with_l_eq; [reflexivity | rewrite length_map; congruence].
  - intros j b Hb.
    destruct (lookup_lt_is_Some_2 rand_vec j) as [r Hr].
    { rewrite Hrl. eapply lookup_lt_Some, Hb. }
    exists (b && Rltb r Train.train_split_frac),
           (b && Rleb Train.train_split_frac r).
    split; [|split; [|split]].
    + rewrite lookup_zip_with, Hb. simpl.
      change (map ?f ?l) with (f <$> l). rewrite list_lookup_fmap, Hr.
      reflexivity.
    + rewrite lookup_zip_with, Hb. simpl.
      change (map ?f ?l) with (f <$> l). rewrite list_lookup_fmap, Hr.
      reflexivity.
    + rewrite Rltb_negb_Rleb.
      destruct b, (Rleb Train.train_split_frac r); reflexivity.
    + rewrite Rltb_negb_Rleb.
      destruct b, (Rleb Train.train_split_frac r); reflexivity.
Qed.

(** ** The arrays behind the group ids *)

Section GroupIdStore.
Import VisionKs.

Lemma pack_loop_spec (cols : list nat) :
  forall (i : nat) (h0 h : gmap nat (list npval)) (gl : nat)
         (garr : list npval) (arrs : list (list npval)),
    h0 ⊆ h -> h !! gl = Some garr ->
    Forall2 (fun c a => h0 !! c = Some a) cols arrs ->
    exists h' gl',
      Train.pack_loop i cols h gl = Ok (h', gl') /\
      h0 ⊆ h' /\
      h' !! gl' = Some (pack_columns i arrs garr) /\
      (cols = [] -> gl' = gl /\ h' = h) /\
      (cols <> [] \/ h0 !! gl = None -> h0 !! gl' = None).
Proof.
  induction cols as [|c cols IH]; intros i h0 h gl garr arrs Hsub Hg Hcols.
  - inversion Hcols; subst. exists h, gl. simpl.
    split; [reflexivity|]. split; [exact Hsub|]. split; [exact Hg|].
    split; [auto|]. intros [Hne|Hnone]; [congruence | exact Hnone].
  - inversion Hcols as [|? a ? arrs' Ha Hrest]; subst.
    change (Train.pack_loop i (c :: cols) h gl)
      with (g ← Train.array h gl;
            col ← Train.array h c;
            let '(l, h) :=
              Train.alloc_array h
                (zip_with np_add g
                   (map (np_scale (2 ^ (Z.of_nat i + 1))) col)) in
            Train.pack_loop (S i) cols h l).
    unfold Train.array. rewrite Hg. cbn [mbind result_bind].
    rewrite (lookup_weaken h0 h c a Ha Hsub). cbn [mbind result_bind].
    unfold Train.alloc_array. cbn [pack_columns].
    set (new := zip_with np_add garr (map (np_scale (2 ^ (Z.of_nat i + 1))) a)).
    set (l := fresh (dom h)).
    assert (Hl : h !! l = None) by (apply not_elem_of_dom, is_fresh).
    assert (Hl0 : h0 !! l = None) by (eapply lookup_weaken_None; eassumption).
    destruct (IH (S i) h0 (<[l := new]> h) l new arrs')
      as (h' & gl' & Hloop & Hsub' & Hres & _ & Hfresh).
    + etrans; [exact Hsub|]. apply insert_subseteq, Hl.
    + apply lookup_insert_eq.
    + exact Hrest.
    + exists h', gl'. split; [exact Hloop|]. split; [exact Hsub'|].
      split; [exact Hres|]. split; [discriminate|].
      intros _. apply Hfresh. right. exact Hl0.
Qed.
End GroupIdStore.

(** X14: on the arrays of the datapanel, the group ids that [train]
    computes are those of the bit-packing loop; with at least one
    subgroup column no array of the datapanel is modified, but without
    subgroup columns [group_ids] is the target array itself, and the
    assignment of -1 through the NaN mask overwrites the missing target
    labels in the target column of the datapanel. *)
Theorem group_ids_alias_target (h : gmap nat (list VisionKs.npval))
    (target : nat) (subgroup_columns : list nat)
    (target_array : list VisionKs.npval)
    (subgroup_arrays : list (list VisionKs.npval)) :
  h !! target = Some target_array ->
  Forall2 (fun c a => h !! c = Some a) subgroup_columns subgroup_arrays ->
  exists h',
    Train.group_ids_in_store h target subgroup_columns
    = Ok (h', VisionKs.compute_group_ids target_array subgroup_arrays) /\
    (subgroup_columns = [] ->
     h' !! target
     = Some (map (fun x => if VisionKs.isnan x then VisionKs.Num (-1) else x)
               target_array)) /\
    (subgroup_columns <> [] ->
     forall l a, h !! l = Some a -> h' !! l = Some a).
Proof.
  intros Ht Hcols. unfold Train.group_ids_in_store, VisionKs.compute_group_ids.
  pose proof (Forall2_length _ _ _ Hcols) as Hlen.
  destruct subgroup_columns as [|c cols].
  - destruct subgroup_arrays; [|discriminate Hlen]. simpl.
    unfold Train.array. rewrite Ht. simpl.
    eexists. split; [reflexivity|]. split; [|congruence].
    intros _. apply lookup_insert_eq.
  - destruct subgroup_arrays as [|a arrs]; [discriminate Hlen|].
    change (0 <? length (c :: cols))%nat with true.
    change (0 <? length (a :: arrs))%nat with true. cbv iota.
    destruct (pack_loop_spec (c :: cols) 0 h h target target_array (a :: arrs))
      as (h1 & gl & -> & Hsub & Hres & _ & Hfresh);
      [reflexivity | exact Ht | exact Hcols |].
    simpl. unfold Train.array. rewrite Hres. simpl.
    eexists. split; [reflexivity|]. split; [discriminate|].
    intros _ l arr Hl.
    assert (Hne : gl <> l).
    { intros ->. rewrite Hfresh in Hl; [discriminate | left; discriminate]. }
    rewrite lookup_insert_ne by exact Hne.
    eapply lookup_weaken; eassumption.
Qed.

Lemma group_ids_alias_target_witness :
  exists h',
    Train.group_ids_in_store {[ 0 := [VisionKs.Num 1; VisionKs.NaN] ]} 0 []
    = Ok (h', [1; -1]%Z) /\
    h' !! 0 = Some [VisionKs.Num 1; VisionKs.Num (-1)].
Proof.
  destruct (group_ids_alias_target {[ 0 := [VisionKs.Num 1; VisionKs.NaN] ]}
              0 [] [VisionKs.Num 1; VisionKs.NaN] [])
    as (h' & Hrun & Hnil & _);
    [apply lookup_singleton_eq | constructor |].
  exists h'. split; [exact Hrun | apply Hnil; reflexivity].
Defined.

(** ** The file path read by [cxr_pil_loader] *)

Lemma dict_get_lookup {V} (d : list (string * V)) (i : nat) (k : string)
    (v : V) :
  NoDup (map fst d) -> d !! i = Some (k, v) -> Cxr.dict_get d k = Ok v.
Proof.
  intros Hnd Hi. unfold Cxr.dict_get.
  destruct (list_find (fun e : string * V => e.1 = k) d) as [[j [k' v']]|] eqn:E.
  - apply list_find_Some in E as (Hj & Hk & _). simpl in Hk. subst k'.
    assert (Hij : i = j).
    { apply (NoDup_lookup (map fst d) i j k Hnd).
      - change (map ?f ?l) with (f <$> l).
        rewrite list_lookup_fmap, Hi. reflexivity.
      - change (map ?f ?l) with (f <$> l).
        rewrite list_lookup_fmap, Hj. reflexivity. }
    subst j. rewrite Hi in Hj. injection Hj as <-. reflexivity.
  - apply list_find_None in E. rewrite Forall_forall in E.
    exfalso. apply (E (k, v)); [|reflexivity].
    eapply list_elem_of_lookup_2, Hi.
Qed.

(** X15: [cxr_pil_loader] finds the file by position, not by name: when
    ["filepath"] is one of the keys of the input dict it reads the value
    of the second key, otherwise the value of the first key; a dict whose
    only key is ["filepath"] therefore makes it raise [IndexError], as
    does an empty dict. *)
Theorem cxr_pil_loader_reads_by_position {pil : Type}
    (read_dicom : string -> result pil) (input_dict : list (string * string)) :
  NoDup (map fst input_dict) ->
  ("filepath"%string ∈ map fst input_dict ->
   Cxr.cxr_pil_loader read_dicom input_dict
   = match input_dict !! 1 with
     | Some (_, v) => read_dicom v
     | None => Raise IndexError
     end) /\
  ("filepath"%string ∉ map fst input_dict ->
   Cxr.cxr_pil_loader read_dicom input_dict
   = match input_dict !! 0 with
     | Some (_, v) => read_dicom v
     | None => Raise IndexError
     end).
Proof.
  intros Hnd.
  assert (Hat : forall i,
    (filepath_key ← VisionKs.index (map fst input_dict) i;
     filepath ← Cxr.dict_get input_dict filepath_key;
     read_dicom filepath)
    = match input_dict !! i with
      | Some (_, v) => read_dicom v
      | None => Raise IndexError
      end).
  { intros i. unfold VisionKs.index.
    change (map ?f ?l) with (f <$> l). rewrite list_lookup_fmap.
    destruct (input_dict !! i) as [[k v]|] eqn:Hi; simpl; [|reflexivity].
    rewrite (dict_get_lookup input_dict i k v Hnd Hi). reflexivity. }
  unfold Cxr.cxr_pil_loader. split; intros Hin.
  - rewrite bool_decide_eq_true_2 by exact Hin. apply Hat.
  - rewrite bool_decide_eq_false_2 by exact Hin. apply Hat.
Qed.

Lemma cxr_pil_loader_reads_by_position_witness :
  Cxr.cxr_pil_loader (fun p => Ok p)
    [("filepath", "scan.dcm"); ("split", "train")]%string
  = Ok "train"%string.
Proof.
  destruct (cxr_pil_loader_reads_by_position (fun p : string => Ok p)
              [("filepath", "scan.dcm"); ("split", "train")]%string)
    as [Hin _].
  - repeat constructor; set_unfold; intuition discriminate.
  - apply Hin. left.
Defined.

(** ** The result directory *)

Section SaveDirFacts.
Import SaveDir.

Lemma string_app_assoc (a b c : string) : (a +:+ b) +:+ c = a +:+ (b +:+ c).
Proof.
  induction a as [|x a IH]; [reflexivity|].
  change (String x ((a +:+ b) +:+ c) = String x (a +:+ (b +:+ c))).
  f_equal. exact IH.
Qed.

(** The path does not depend on the file system, which is only consulted
    and extended at the very end. *)
Lemma get_save_dir_factor (cfg : config) :
  exists r : result string,
    forall fs,
      get_save_dir cfg fs
      = (save_dir ← r;
         Ok (save_dir,
             if bool_decide (save_dir ∈ fs) then fs else makedirs fs save_dir)).
Proof.
  unfold get_save_dir.
  destruct (entry (train cfg) "gaze_split") as [gaze_split|e]; simpl;
    [|exists (Raise e); reflexivity].
  destruct (entry (dataset cfg) "target_column") as [target|e]; simpl;
    [|exists (Raise e); reflexivity].
  destruct (match dataset cfg, dataset_subgroup_columns cfg with
            | Some _, Some l => Ok l
            | _, _ => Raise KeyError
            end) as [cols|e]; simpl; [|exists (Raise e); reflexivity].
  destruct (entry (train cfg) "method") as [method|e]; simpl;
    [|exists (Raise e); reflexivity].
  destruct (entry (train cfg) "lr") as [lr|e]; simpl;
    [|exists (Raise e); reflexivity].
  destruct (entry (train cfg) "wd") as [wd|e]; simpl;
    [|exists (Raise e); reflexivity].
  destruct (entry (model cfg) "dropout") as [dropout|e]; simpl;
    [|exists (Raise e); reflexivity].
  match goal with
  | |- context [mbind _ ?m] =>
      match type of m with
      | result string => destruct m as [save_dir|e]; simpl;
                         [|exists (Raise e); reflexivity]
      end
  end.
  destruct (entry (train cfg) "seed") as [seed|e]; simpl;
    [|exists (Raise e); reflexivity].
  eexists (Ok _). intros fs. reflexivity.
Qed.
End SaveDirFacts.

(** X16: when [get_save_dir] returns, the returned path is a directory
    of the file system it leaves, every directory that existed before
    still exists, and calling it again gives the same path and changes
    nothing; if the directory existed already the file system is left as
    it was. *)
Theorem get_save_dir_creates_once (cfg : SaveDir.config)
    (fs fs' : gset string) (save_dir : string) :
  SaveDir.get_save_dir cfg fs = Ok (save_dir, fs') ->
  save_dir ∈ fs' /\ fs ⊆ fs' /\
  SaveDir.get_save_dir cfg fs' = Ok (save_dir, fs') /\
  (save_dir ∈ fs -> fs' = fs).
Proof.
  destruct (get_save_dir_factor cfg) as [r Hr].
  rewrite !Hr. destruct r as [p|e]; simpl; [|discriminate].
  intros [= <- <-].
  destruct (bool_decide (p ∈ fs)) eqn:Hin.
  - apply bool_decide_eq_true in Hin. rewrite bool_decide_eq_true_2 by exact Hin.
    repeat split; [exact Hin | reflexivity].
  - assert (Hp : p ∈ SaveDir.makedirs fs p).
    { unfold SaveDir.makedirs. apply elem_of_union_r, elem_of_singleton.
      reflexivity. }
    rewrite bool_decide_eq_true_2 by exact Hp.
    split; [exact Hp|]. split; [|split; [reflexivity|]].
    + unfold SaveDir.makedirs. intros x Hx.
      apply elem_of_union_l, elem_of_union_l, Hx.
    + intros Hin'. apply bool_decide_eq_false in Hin. contradiction.
Qed.

Lemma cnc_config_save_dir :
  exists save_dir fs', SaveDir.get_save_dir cnc_config ∅ = Ok (save_dir, fs').
Proof.
  unfold SaveDir.get_save_dir.
  change (SaveDir.entry (SaveDir.train cnc_config) "gaze_split")
    with (@Ok string "True").
  change (SaveDir.entry (SaveDir.dataset cnc_config) "target_column")
    with (@Ok string "pmx").
  change (SaveDir.entry (SaveDir.train cnc_config) "method")
    with (@Ok string "cnc").
  change (SaveDir.entry (SaveDir.train cnc_config) "lr")
    with (@Ok string "0.001").
  change (SaveDir.entry (SaveDir.train cnc_config) "wd")
    with (@Ok string "0.0").
  change (SaveDir.entry (SaveDir.model cnc_config) "dropout")
    with (@Ok string "0.1").
  change (SaveDir.entry (SaveDir.train cnc_config) "seed")
    with (@Ok string "1").
  cbn [mbind result_bind SaveDir.dataset SaveDir.dataset_subgroup_columns
       SaveDir.train SaveDir.train_contrastive_config cnc_config].
  change (SaveDir.contains "erm" "cnc") with false.
  change (SaveDir.entry (Some {[ "contrastive_weight"%string := "0.5"%string ]})
            "contrastive_weight") with (@Ok string "0.5").
  cbn [negb mbind result_bind].
  eexists _, _. reflexivity.
Qed.

Lemma get_save_dir_creates_once_witness :
  exists save_dir fs',
    SaveDir.get_save_dir cnc_config ∅ = Ok (save_dir, fs') /\
    save_dir ∈ fs'.
Proof.
  destruct cnc_config_save_dir as (save_dir & fs' & E).
  exists save_dir, fs'. split; [exact E|].
  destruct (get_save_dir_creates_once cnc_config ∅ fs' save_dir E) as [Hin _].
  exact Hin.
Defined.

(** X17: a method whose name does not contain ["erm"] needs a configured
    contrastive weight: when [get_save_dir] returns for such a method,
    the configuration has one and the path ends in
    [/cw_<weight>/seed_<seed>]; for a method whose name contains ["erm"]
    the contrastive configuration is never read, and the path ends in
    [/seed_<seed>] in every case. *)
Theorem get_save_dir_contrastive_weight (cfg : SaveDir.config)
    (fs : gset string) (method : string) :
  SaveDir.entry (SaveDir.train cfg) "method" = Ok method ->
  (forall save_dir fs',
      SaveDir.get_save_dir cfg fs = Ok (save_dir, fs') ->
      exists seed prefix,
        SaveDir.entry (SaveDir.train cfg) "seed" = Ok seed /\
        save_dir = (prefix +:+ "/seed_" +:+ seed)%string /\
        (SaveDir.contains "erm" method = false ->
         exists cw prefix',
           SaveDir.entry (SaveDir.train_contrastive_config cfg)
             "contrastive_weight" = Ok cw /\
           save_dir
           = (prefix' +:+ "/cw_" +:+ cw +:+ "/seed_" +:+ seed)%string)) /\
  (SaveDir.contains "erm" method = true ->
   forall cc,
     SaveDir.get_save_dir
       {| SaveDir.train := SaveDir.train cfg;
          SaveDir.train_contrastive_config := cc;
          SaveDir.dataset := SaveDir.dataset cfg;
          SaveDir.dataset_subgroup_columns := SaveDir.dataset_subgroup_columns cfg;
          SaveDir.model := SaveDir.model cfg |} fs
     = SaveDir.get_save_dir cfg fs).
Proof.
  intros Hmethod. split.
  - intros save_dir fs'.
    assert (Htr : exists tr, SaveDir.train cfg = Some tr).
    { destruct (SaveDir.train cfg) as [tr|]; [eauto | discriminate Hmethod]. }
    destruct Htr as [tr Htr].
    unfold SaveDir.get_save_dir. rewrite Hmethod.
    destruct (SaveDir.entry (SaveDir.train cfg) "gaze_split")
      as [gaze_split|e]; simpl; [|discriminate].
    destruct (SaveDir.entry (SaveDir.dataset cfg) "target_column")
      as [target|e]; simpl; [|discriminate].
    destruct (match SaveDir.dataset cfg, SaveDir.dataset_subgroup_columns cfg with
              | Some _, Some l => Ok l
              | _, _ => Raise KeyError
              end) as [cols|e]; simpl; [|discriminate].
    destruct (SaveDir.entry (SaveDir.train cfg) "lr") as [lr|e]; simpl;
      [|discriminate].
    destruct (SaveDir.entry (SaveDir.train cfg) "wd") as [wd|e]; simpl;
      [|discriminate].
    destruct (SaveDir.entry (SaveDir.model cfg) "dropout") as [dropout|e];
      simpl; [|discriminate].
    destruct (SaveDir.contains "erm" method) eqn:Herm; simpl.
    + destruct (SaveDir.entry (SaveDir.train cfg) "seed") as [seed|e]; simpl;
        [|discriminate].
      intros [= <- _]. eexists seed, _. split; [reflexivity|].
      split; [reflexivity | discriminate].
    + rewrite Htr at 1.
      destruct (SaveDir.entry (SaveDir.train_contrastive_config cfg)
                  "contrastive_weight") as [cw|e]; simpl; [|discriminate].
      destruct (SaveDir.entry (SaveDir.train cfg) "seed") as [seed|e]; simpl;
        [|discriminate].
      intros [= <- _]. eexists seed, _. split; [reflexivity|].
      split; [reflexivity|]. intros _. eexists cw, _.
      split; [reflexivity|].
      rewrite (string_app_assoc _ ("/cw_" +:+ cw)%string). reflexivity.
  - intros Herm cc. unfold SaveDir.get_save_dir. simpl. rewrite Hmethod.
    destruct (SaveDir.entry (SaveDir.train cfg) "gaze_split"); simpl;
      [|reflexivity].
    destruct (SaveDir.entry (SaveDir.dataset cfg) "target_column"); simpl;
      [|reflexivity].
    destruct (match SaveDir.dataset cfg, SaveDir.dataset_subgroup_columns cfg with
              | Some _, Some l => Ok l
              | _, _ => Raise KeyError
              end); simpl; [|reflexivity].
    destruct (SaveDir.entry (SaveDir.train cfg) "lr"); simpl; [|reflexivity].
    destruct (SaveDir.entry (SaveDir.train cfg) "wd"); simpl; [|reflexivity].
    destruct (SaveDir.entry (SaveDir.model cfg) "dropout"); simpl;
      [|reflexivity].
    rewrite Herm. reflexivity.
Qed.

Lemma get_save_dir_contrastive_weight_witness :
  exists save_dir fs' prefix,
    SaveDir.get_save_dir cnc_config ∅ = Ok (save_dir, fs') /\
    save_dir = (prefix +:+ "/cw_" +:+ "0.5" +:+ "/seed_" +:+ "1")%string.
Proof.
  destruct cnc_config_save_dir as (save_dir & fs' & Hrun).
  destruct (get_save_dir_contrastive_weight cnc_config ∅ "cnc" eq_refl)
    as [Hpath _].
  destruct (Hpath save_dir fs' Hrun) as (seed & prefix & Hseed & _ & Hcw).
  destruct (Hcw eq_refl) as (cw & prefix' & Hcwv & Heq).
  change (Ok "1"%string = Ok seed) in Hseed.
  change (Ok "0.5"%string = Ok cw) in Hcwv.
  injection Hseed as <-. injection Hcwv as <-.
  exists save_dir, fs', prefix'. split; [exact Hrun | exact Heq].
Defined.

(** ** Activation hooks of [score] *)

Lemma items_key_unique {A B} (l : list (A * B)) (x : A) (y1 y2 : B) :
  NoDup l.*1 -> (x, y1) ∈ l -> (x, y2) ∈ l -> y1 = y2.
Proof.
  induction l as [|[a b] l IH]; intros Hnd H1 H2.
  - apply elem_of_nil in H1. contradiction.
  - apply NoDup_cons in Hnd as [Hnotin Hnd].
    apply elem_of_cons in H1 as [H1|H1], H2 as [H2|H2].
    + congruence.
    + injection H1 as -> ->. exfalso. apply Hnotin.
      apply list_elem_of_fmap. exists (a, y2). split; [reflexivity | exact H2].
    + injection H2 as -> ->. exfalso. apply Hnotin.
      apply list_elem_of_fmap. exists (a, y1). split; [reflexivity | exact H1].
    + exact (IH Hnd H1 H2).
Qed.

Section ScoreFacts.
Context {L V : Type}.
Implicit Types (st : Score.hook_state L V) (rs : list (option (V -> V))).

Lemma add_extractors_hooks (name : string) (layer : L) rs st :
  Score.hooks (foldl (fun st r => Score.add_extractor st name layer r) st rs)
  = Score.hooks st ++ map (fun r => (layer, r)) rs.
Proof.
  revert st. induction rs as [|r rs IH]; intros st; simpl.
  - rewrite app_nil_r. reflexivity.
  - rewrite IH. simpl. rewrite <- app_assoc. reflexivity.
Qed.

Lemma add_extractors_overwrite (name : string) (layer : L) rs st (x : nat) :
  <[name := x]> (Score.layer_to_extractor
                   (foldl (fun st r => Score.add_extractor st name layer r) st rs))
  = <[name := x]> (Score.layer_to_extractor st).
Proof.
  revert st. induction rs as [|r rs IH]; intros st; simpl; [reflexivity|].
  rewrite IH. simpl. apply insert_insert_eq.
Qed.

Lemma add_extractors_last (name : string) (layer : L) rs r st :
  Score.layer_to_extractor
    (foldl (fun st r => Score.add_extractor st name layer r) st (rs ++ [r]))
  = <[name := length (Score.hooks st) + length rs]> (Score.layer_to_extractor st).
Proof.
  rewrite foldl_app. simpl. rewrite add_extractors_hooks.
  rewrite length_app, length_map. apply add_extractors_overwrite.
Qed.

(** The registration loop over the layers, for any non-empty sequence
    [rs ++ [r]] of reductions per layer: every entry of
    [layer_to_extractor] points at a hook that carries the last
    reduction. *)
Lemma register_loop_invariant rs (r : option (V -> V)) (items : list (string * L)) :
  let st :=
    foldl (fun st (item : string * L) =>
             foldl (fun st r => Score.add_extractor st item.1 item.2 r)
               st (rs ++ [r]))
      {| Score.hooks := []; Score.layer_to_extractor := ∅ |} items in
  length (Score.hooks st) = length items * S (length rs) /\
  (forall name i,
      Score.layer_to_extractor st !! name = Some i ->
      exists l, (name, l) ∈ items /\ Score.hooks st !! i = Some (l, r)) /\
  (forall name l, (name, l) ∈ items ->
                  is_Some (Score.layer_to_extractor st !! name)).
Proof.
  induction items as [|[n l] items IH] using rev_ind; simpl.
  - split; [reflexivity|]. split.
    + intros name i H. rewrite lookup_empty in H. discriminate.
    + intros name l H. apply elem_of_nil in H. contradiction.
  - rewrite foldl_app. simpl.
    set (st0 := foldl _ _ items) in *.
    destruct IH as (Hlen & Hpt & Hdom).
    rewrite add_extractors_hooks, add_extractors_last.
    split; [|split].
    + rewrite !length_app, length_map, length_app, Hlen. simpl. lia.
    + intros name i Hi.
      destruct (decide (n = name)) as [->|Hne].
      * rewrite lookup_insert_eq in Hi. injection Hi as <-.
        exists l. split.
        { apply elem_of_app. right. apply list_elem_of_singleton. reflexivity. }
        rewrite lookup_app_r by lia.
        replace (length (Score.hooks st0) + length rs - length (Score.hooks st0))
          with (length rs) by lia.
        rewrite map_app. simpl.
        rewrite <- (length_map (fun r0 => (l, r0)) rs).
        apply list_lookup_middle. reflexivity.
      * rewrite lookup_insert_ne in Hi by exact Hne.
        destruct (Hpt name i Hi) as (l0 & Hin & Hh).
        exists l0. split; [apply elem_of_app; left; exact Hin|].
        rewrite lookup_app_l by (eapply lookup_lt_Some; exact Hh). exact Hh.
    + intros name l0 Hin. apply elem_of_app in Hin as [Hin|Hin].
      * destruct (decide (n = name)) as [->|Hne].
        { rewrite lookup_insert_eq. eauto. }
        rewrite lookup_insert_ne by exact Hne. eapply Hdom, Hin.
      * apply list_elem_of_singleton in Hin. injection Hin as -> ->.
        rewrite lookup_insert_eq. eauto.
Qed.

Lemma register_some_fns (items : list (string * L)) (fns : list (V -> V)) :
  Score.register (Some items) (Some fns)
  = foldl (fun st (item : string * L) =>
             foldl (fun st r => Score.add_extractor st item.1 item.2 r)
               st (map Some fns))
      {| Score.hooks := []; Score.layer_to_extractor := ∅ |} items.
Proof.
  unfold Score.register.
  generalize ({| Score.hooks := []; Score.layer_to_extractor := ∅ |}
              : Score.hook_state L V).
  induction items as [|item items IH]; intros st; simpl; [reflexivity|].
  rewrite IH. f_equal.
  change (map Some fns) with (Some <$> fns). rewrite foldl_fmap. reflexivity.
Qed.

Lemma register_no_fns (items : list (string * L)) :
  Score.register (Some items) None
  = foldl (fun st (item : string * L) =>
             foldl (fun st r => Score.add_extractor st item.1 item.2 r)
               st ([] ++ [@None (V -> V)]))
      {| Score.hooks := []; Score.layer_to_extractor := ∅ |} items.
Proof. reflexivity. Qed.

(** What [_score] returns for a state in which every entry of
    [layer_to_extractor] points at a hook with reduction [r]. *)
Lemma score_columns {O} (items : list (string * L)) (r : option (V -> V))
    (out : L -> option V) (logits : O) st :
  NoDup items.*1 ->
  (forall name i,
      Score.layer_to_extractor st !! name = Some i ->
      exists l, (name, l) ∈ items /\ Score.hooks st !! i = Some (l, r)) ->
  (forall name l, (name, l) ∈ items ->
                  is_Some (Score.layer_to_extractor st !! name)) ->
  ((forall name l, (name, l) ∈ items -> is_Some (out l)) ->
   exists cols,
     Score._score out logits st = Ok cols /\
     (forall name l o,
         (name, l) ∈ items -> out l = Some o ->
         cols !! name
         = Some (Score.Activation
                   (match r with Some f => f o | None => o end))) /\
     (forall name, name ∉ items.*1 -> name <> "output"%string ->
                   cols !! name = None) /\
     ("output"%string ∉ items.*1 ->
      cols !! "output"%string
      = Some (Score.ClassificationOutputColumn logits))) /\
  (forall name l, (name, l) ∈ items -> out l = None ->
                  Score._score out logits st = Raise AttributeError).
Proof.
  intros Hnd Hpt Hdom.
  assert (Hact : forall name l, (name, l) ∈ items ->
            exists i, Score.layer_to_extractor st !! name = Some i /\
              Score.activation out st i
              = match out l with
                | Some o => Some (match r with Some f => f o | None => o end)
                | None => None
                end).
  { intros name l Hin. destruct (Hdom name l Hin) as [i Hi].
    exists i. split; [exact Hi|].
    destruct (Hpt name i Hi) as (l0 & Hin0 & Hh).
    assert (l0 = l) as -> by exact (items_key_unique items name l0 l Hnd Hin0 Hin).
    unfold Score.activation. rewrite Hh. reflexivity. }
  assert (Hnone : forall name, name ∉ items.*1 ->
            Score.layer_to_extractor st !! name = None).
  { intros name Hn. destruct (Score.layer_to_extractor st !! name) as [i|] eqn:E;
      [|reflexivity].
    destruct (Hpt name i E) as (l0 & Hin0 & _). exfalso. apply Hn.
    apply list_elem_of_fmap. exists (name, l0). split; [reflexivity | exact Hin0]. }
  split.
  - intros Hrun. unfold Score._score, Score.activation_columns.
    destruct (decide (map_Forall _ _)) as [_|Hno].
    + cbn [mbind result_bind]. eexists. split; [reflexivity|].
      split; [|split].
      * intros name l o Hin Ho. destruct (Hact name l Hin) as (i & Hi & Ha).
        rewrite Ho in Ha.
        apply lookup_union_Some_l. rewrite lookup_fmap, lookup_omap, Hi.
        simpl. rewrite Ha. reflexivity.
      * intros name Hn Hout. rewrite lookup_union_r.
        { apply lookup_singleton_ne. congruence. }
        rewrite lookup_fmap, lookup_omap, (Hnone name Hn). reflexivity.
      * intros Hn. rewrite lookup_union_r.
        { apply lookup_singleton_eq. }
        rewrite lookup_fmap, lookup_omap, (Hnone _ Hn). reflexivity.
    + exfalso. apply Hno. intros name i Hi.
      destruct (Hpt name i Hi) as (l0 & Hin0 & Hh).
      destruct (Hrun name l0 Hin0) as [o Ho].
      unfold Score.activation. rewrite Hh, Ho. eauto.
  - intros name l Hin Ho. unfold Score._score, Score.activation_columns.
    destruct (decide (map_Forall _ _)) as [Hall|_]; [|reflexivity].
    exfalso. destruct (Hact name l Hin) as (i & Hi & Ha).
    rewrite Ho in Ha. destruct (Hall name i Hi) as [v Hv]. congruence.
Qed.

Lemma register_empty_fns (items : list (string * L)) :
  Score.register (Some items) (Some [])
  = ({| Score.hooks := []; Score.layer_to_extractor := ∅ |}
     : Score.hook_state L V).
Proof.
  unfold Score.register.
  generalize ({| Score.hooks := []; Score.layer_to_extractor := ∅ |}
              : Score.hook_state L V).
  induction items as [|item items IH]; intros st; simpl; [reflexivity|].
  apply IH.
Qed.
End ScoreFacts.

(** X18: with a non-empty sequence of reduction functions, [score]
    registers one hook per layer and function, but each layer name keeps
    only the extractor made last: when every layer ran, the batch
    function returns, under each layer name, the last function applied
    to that layer's output, and no key besides the layer names and
    ["output"]; ["output"] holds the classification output only if no
    layer has that name.  If some layer did not run in the forward pass,
    the batch function raises [AttributeError]. *)
Theorem score_reports_last_reduction {L V O} (items : list (string * L))
    (fs : list (V -> V)) (f : V -> V) (out : L -> option V) (logits : O) :
  NoDup items.*1 ->
  let st := Score.register (Some items) (Some (fs ++ [f])) in
  length (Score.hooks st) = length items * length (fs ++ [f]) /\
  ((forall name l, (name, l) ∈ items -> is_Some (out l)) ->
   exists cols,
     Score._score out logits st = Ok cols /\
     (forall name l o,
         (name, l) ∈ items -> out l = Some o ->
         cols !! name = Some (Score.Activation (f o))) /\
     (forall name, name ∉ items.*1 -> name <> "output"%string ->
                   cols !! name = None) /\
     ("output"%string ∉ items.*1 ->
      cols !! "output"%string
      = Some (Score.ClassificationOutputColumn logits))) /\
  (forall name l, (name, l) ∈ items -> out l = None ->
                  Score._score out logits st = Raise AttributeError).
Proof.
  intros Hnd st. subst st. rewrite register_some_fns, map_app. simpl.
  destruct (register_loop_invariant (map Some fs) (Some f) items)
    as (Hlen & Hpt & Hdom).
  split.
  - rewrite Hlen, length_map, length_app. simpl. lia.
  - exact (score_columns items (Some f) out logits _ Hnd Hpt Hdom).
Qed.

Lemma score_reports_last_reduction_witness :
  NoDup score_layers.*1 /\
  exists cols,
    Score._score layer_outputs 0%Z
      (Score.register (Some score_layers) (Some [Z.succ; Z.opp])) = Ok cols /\
    cols !! "fc"%string = Some (Score.Activation (-10)%Z) /\
    cols !! "output"%string = Some (Score.Activation (-11)%Z).
Proof.
  assert (Hnd : NoDup score_layers.*1).
  { apply (bool_decide_unpack (NoDup score_layers.*1)). vm_compute. exact I. }
  split; [exact Hnd|].
  destruct (score_reports_last_reduction score_layers [Z.succ] Z.opp
              layer_outputs 0%Z Hnd) as (_ & Hrun & _).
  destruct Hrun as (cols & Hcols & Hact & _).
  { intros name l _. exists (Z.of_nat l + 10)%Z. reflexivity. }
  exists cols. split; [exact Hcols|]. split.
  - apply (Hact "fc"%string 0 10%Z); [|reflexivity].
    apply elem_of_cons. left. reflexivity.
  - apply (Hact "output"%string 1 11%Z); [|reflexivity].
    apply elem_of_cons. right. apply elem_of_cons. left. reflexivity.
Defined.

(** X19: without reduction functions ([reduction_fns = None]) [score]
    registers exactly one hook per layer, and when every layer ran the
    batch function returns each layer's output unchanged under the
    layer's name; a layer that did not run makes it raise
    [AttributeError]. *)
Theorem score_reports_raw_output {L V O} (items : list (string * L))
    (out : L -> option V) (logits : O) :
  NoDup items.*1 ->
  let st := Score.register (Some items) (@None (list (V -> V))) in
  length (Score.hooks st) = length items /\
  ((forall name l, (name, l) ∈ items -> is_Some (out l)) ->
   exists cols,
     Score._score out logits st = Ok cols /\
     (forall name l o,
         (name, l) ∈ items -> out l = Some o ->
         cols !! name = Some (Score.Activation o)) /\
     (forall name, name ∉ items.*1 -> name <> "output"%string ->
                   cols !! name = None)) /\
  (forall name l, (name, l) ∈ items -> out l = None ->
                  Score._score out logits st = Raise AttributeError).
Proof.
  intros Hnd st. subst st. rewrite register_no_fns.
  destruct (register_loop_invariant [] (@None (V -> V)) items)
    as (Hlen & Hpt & Hdom).
  split; [rewrite Hlen; simpl; lia|].
  destruct (score_columns items None out logits _ Hnd Hpt Hdom)
    as [Hrun Hfail].
  split; [|exact Hfail].
  intros Hall. destruct (Hrun Hall) as (cols & Hcols & Hact & Hother & _).
  exists cols. split; [exact Hcols|]. split; [exact Hact | exact Hother].
Qed.

Lemma score_reports_raw_output_witness :
  NoDup score_layers.*1 /\
  length (Score.hooks
            (Score.register (Some score_layers) (@None (list (Z -> Z))))) = 2.
Proof.
  assert (Hnd : NoDup score_layers.*1).
  { apply (bool_decide_unpack (NoDup score_layers.*1)). vm_compute. exact I. }
  split; [exact Hnd|].
  destruct (score_reports_raw_output (V := Z) score_layers layer_outputs 0%Z Hnd)
    as (Hlen & _).
  exact Hlen.
Defined.

(** X20: an empty sequence of reduction functions is not the same as
    none: [score] then registers no hook and no extractor for any layer,
    and the batch function returns the classification output alone,
    whether or not the layers ran. *)
Theorem score_empty_reductions_extract_nothing {L V O}
    (items : list (string * L)) (out : L -> option V) (logits : O) :
  Score.register (Some items) (Some [])
  = Score.register (@None (list (string * L))) (@None (list (V -> V))) /\
  Score._score out logits (Score.register (Some items) (Some []))
  = Ok {[ "output"%string := Score.ClassificationOutputColumn logits ]}.
Proof.
  rewrite register_empty_fns. split; [reflexivity|].
  unfold Score._score, Score.activation_columns. simpl.
  destruct (decide (map_Forall _ _)) as [_|Hno].
  - cbn [mbind result_bind]. rewrite omap_empty, fmap_empty.
    rewrite (left_id_L ∅ (∪)). reflexivity.
  - exfalso. apply Hno, map_Forall_empty.
Qed.
